(** * The pivot table function and the last_day scalar function

    A shallow embedding of [pivot.cpp] and of [last-day.cpp], followed by
    the properties of the pivot key map, the value key encoder, the schema
    declaration, the row processor and the scalar functions.

    Conventions.
    - The integer types of [vdb_udf.hpp] are read as [Z].  Column counts and
      offsets stay far below any machine bound, and signed overflow has no
      defined behaviour in C++, so arithmetic on them is the arithmetic of
      [Z]; casts between widths are written out ([cast_bigint], [cast_long]).
    - [std::unordered_map<std::string, int_t>] is a [gmap string Z].
    - [arg.throwError] ends the current command: commands that may call it
      return in the [result] monad.
    - What lives in the host headers and is not visible in the sources (the
      numeric values of the type tags, the text the stream operators print
      for floating point numbers, the date arithmetic of [padb_udf]) is a
      member of a class, so that every statement holds for each host. *)

From stdpp Require Import gmap strings list fin_maps functions pretty.
From Equations Require Import Equations.

#[local] Open Scope Z_scope.

(** ** Host interface *)

Abbreviation int_t := Z.
Abbreviation ColumnIndex := Z.

(** The enumerators of [vdb_udf.hpp] that the two [switch] statements name,
    and the default stream formatting of the two floating point types (a
    value is carried as its bit pattern). *)
Class vdb_udf := {
  TypeTimeStamp : int_t;
  TypeBigInt : int_t;
  TypeNumeric : int_t;
  TypeInt : int_t;
  TypeDate : int_t;
  TypeSmallInt : int_t;
  TypeFloat4 : int_t;
  TypeFloat8 : int_t;
  TypeVarChar : int_t;
  TypeBpChar : int_t;
  ostream_float4 : Z -> string;
  ostream_float8 : Z -> string
}.

(** The supported set of the value key encoder: the case labels. *)
Definition supported_types `{vdb_udf} : list int_t :=
  [TypeTimeStamp; TypeBigInt; TypeNumeric; TypeInt; TypeDate; TypeSmallInt;
   TypeFloat4; TypeFloat8; TypeVarChar; TypeBpChar].

(** Failures raised through [arg.throwError].  The constructor names are
    those of the error taxonomy; the message of the source is quoted.
    - [ParameterError]: "'%s' must be specified.", "'%s' must be a column
      reference.", "'%s' must be a column reference or list of column
      references" (in [validate]);
    - [NullPivotKey]: "Cant map NULL pivotcolumn reference";
    - [PivotKeyNotFound]: "Unexpected failure in finding pivotkey %s in map";
    - [OffsetRangeError]: "Derived offset %d does not map to proper pivot
      position";
    - [SchemaIndexError]: [schema.at] out of range;
    - [SchemaError] is raised by [DescribeCmd] only, [UnsupportedKeyType]
      by no command. *)
Inductive error :=
| ParameterError (name : string)
| SchemaError
| SchemaIndexError
| NullPivotKey
| PivotKeyNotFound (key : string)
| OffsetRangeError (thiscolpos : int_t)
| UnsupportedKeyType.

Inductive result (A : Type) :=
| Ok (a : A)
| Err (e : error).
Arguments Ok {A} a.
Arguments Err {A} e.

Definition rbind {A B} (r : result A) (k : A -> result B) : result B :=
  match r with
  | Ok a => k a
  | Err e => Err e
  end.

Notation "'do' x <- r ; k" := (rbind r (fun x => k))
  (at level 10, x name, r at level 100, k at level 200).

(** A typed scalar as a row stores it. *)
Inductive Datum :=
| DTimeStamp (v : Z)
| DBigInt (v : Z)
| DNumeric (v : Z)
| DInt (v : Z)
| DDate (v : Z)
| DSmallInt (v : Z)
| DFloat4 (bits : Z)
| DFloat8 (bits : Z)
| DString (s : string).

(** [vdb_udf::RowDesc]: column index to content, [None] being SQL NULL. *)
Abbreviation RowDesc := (ColumnIndex -> option Datum).

Definition isNull (rd : RowDesc) (idx : ColumnIndex) : bool :=
  match rd idx with
  | None => true
  | Some _ => false
  end.

(** The typed getters.  What the host returns when the column holds another
    type is not visible here; the getter yields zero (the empty string). *)
Definition getTimeStamp (rd : RowDesc) (idx : ColumnIndex) : Z :=
  match rd idx with Some (DTimeStamp v) => v | _ => 0 end.
Definition getBigInt (rd : RowDesc) (idx : ColumnIndex) : Z :=
  match rd idx with Some (DBigInt v) => v | _ => 0 end.
Definition getNumeric (rd : RowDesc) (idx : ColumnIndex) : Z :=
  match rd idx with Some (DNumeric v) => v | _ => 0 end.
Definition getInt (rd : RowDesc) (idx : ColumnIndex) : Z :=
  match rd idx with Some (DInt v) => v | _ => 0 end.
Definition getDate (rd : RowDesc) (idx : ColumnIndex) : Z :=
  match rd idx with Some (DDate v) => v | _ => 0 end.
Definition getSmallInt (rd : RowDesc) (idx : ColumnIndex) : Z :=
  match rd idx with Some (DSmallInt v) => v | _ => 0 end.
Definition getFloat4 (rd : RowDesc) (idx : ColumnIndex) : Z :=
  match rd idx with Some (DFloat4 b) => b | _ => 0 end.
Definition getFloat8 (rd : RowDesc) (idx : ColumnIndex) : Z :=
  match rd idx with Some (DFloat8 b) => b | _ => 0 end.
Definition getValueAsString (rd : RowDesc) (idx : ColumnIndex) : string :=
  match rd idx with Some (DString s) => s | _ => "" end.

(** [m_out_rd->setNull(idx, true)] and [arg.copyColumnValue]. *)
Definition setNull (rd : RowDesc) (idx : ColumnIndex) : RowDesc :=
  <[idx := None]> rd.

Definition copyColumnValue (rd_in : RowDesc) (inIdx : ColumnIndex)
    (rd_out : RowDesc) (outIdx : ColumnIndex) : RowDesc :=
  <[outIdx := rd_in inIdx]> rd_out.

(** [vdb_udf::Column], the two members the map construction reads. *)
Record Column := { col_type : int_t; col_length : int_t }.

(** ** The stream operators of the encoder *)

Definition wrap_signed (w : Z) (x : Z) : Z :=
  (x + 2 ^ (w - 1)) mod 2 ^ w - 2 ^ (w - 1).

Definition cast_long (x : Z) : Z := wrap_signed 64 x.
Definition cast_bigint (x : Z) : Z := wrap_signed 64 x.

Definition LLONG_MAX : Z := 9223372036854775807.
Definition INT128_MIN : Z := - 2 ^ 127.
Definition INT128_MAX : Z := 2 ^ 127 - 1.

(** [ostr << x] for the built-in integer types: the decimal digits. *)
Definition ostream_int (x : Z) : string := pretty x.

(** Termination measure of the 128-bit operator: a negative value costs one
    call to reach its magnitude, a large one loses twelve digits a call. *)
Definition int128_measure (v : Z) : nat :=
  if v <? 0 then S (S (Z.to_nat (Z.log2 (- v)))) else Z.to_nat (Z.log2 v).

(** [std::ostream& operator <<(std::ostream& ostr, __int128_t bigint)].
    The two inner [<<] on a 128-bit operand are calls of the operator
    itself; [bigint * -1] is taken in [Z]. *)
Equations? ostream_int128 (bigint : Z) : string
    by wf (int128_measure bigint) lt :=
  ostream_int128 bigint with Z_lt_dec bigint 0 => {
    | left _ => "-" +:+ ostream_int128 (bigint * -1);
    | right _ with Z_gt_dec bigint LLONG_MAX => {
        | left _ =>
            ostream_int128 (bigint ÷ 1000000000000)
            +:+ ostream_int (cast_long (Z.rem bigint 1000000000000));
        | right _ => ostream_int (cast_long bigint) } }.
Proof.
  - unfold int128_measure.
    destruct (Z.ltb_spec bigint 0); [|lia].
    destruct (Z.ltb_spec (bigint * -1) 0); [lia|].
    replace (bigint * -1) with (- bigint) by lia. lia.
  - unfold LLONG_MAX in *. unfold int128_measure.
    assert (0 <= bigint ÷ 1000000000000) by (apply Z.quot_pos; lia).
    destruct (Z.ltb_spec bigint 0); [lia|].
    destruct (Z.ltb_spec (bigint ÷ 1000000000000) 0); [lia|].
    rewrite Z.quot_div_nonneg by lia.
    assert (bigint / 1000000000000 <= bigint / 2) as Hle
      by (apply Z.div_le_compat_l; lia).
    assert (Z.log2 (bigint / 2) = Z.log2 bigint - 1) as Hhalf.
    { rewrite <- Z.div2_div, Z.div2_spec, Z.log2_shiftr by lia.
      pose proof (Z.log2_le_mono 2 bigint ltac:(lia)) as Hl.
      change (Z.log2 2) with 1 in Hl. lia. }
    pose proof (Z.log2_le_mono _ _ Hle).
    pose proof (Z.log2_nonneg (bigint / 1000000000000)). lia.
Qed.

(** ** PivotMapTable: the session object *)

Record PivotMapTable := {
  m_key_col_idx : int_t;
  m_value_type : int_t;
  m_value_len : int_t;
  m_pivotcol_type : int_t;
  m_pivotcol_len : int_t;
  m_map_values : gmap string Z
}.

(** [PivotMapTable()] *)
Definition PivotMapTable_new : PivotMapTable :=
  {| m_key_col_idx := 0; m_value_type := 0; m_value_len := 0;
     m_pivotcol_type := 0; m_pivotcol_len := 0; m_map_values := ∅ |}.

(** [unordered_map::insert(value_type(key, v))]: the element is inserted
    only when the container holds no element with that key. *)
Definition umap_insert (key : string) (v : int_t) (m : gmap string Z) :
    gmap string Z :=
  match m !! key with
  | Some _ => m
  | None => <[key := v]> m
  end.

Definition setPivotValType (self : PivotMapTable) (v len : int_t) :
    PivotMapTable :=
  {| m_key_col_idx := m_key_col_idx self; m_value_type := v;
     m_value_len := len; m_pivotcol_type := m_pivotcol_type self;
     m_pivotcol_len := m_pivotcol_len self;
     m_map_values := m_map_values self |}.

Definition setPivotColType (self : PivotMapTable) (v len : int_t) :
    PivotMapTable :=
  {| m_key_col_idx := m_key_col_idx self; m_value_type := m_value_type self;
     m_value_len := m_value_len self; m_pivotcol_type := v;
     m_pivotcol_len := len; m_map_values := m_map_values self |}.

Definition set_map_values (self : PivotMapTable) (m : gmap string Z) :
    PivotMapTable :=
  {| m_key_col_idx := m_key_col_idx self; m_value_type := m_value_type self;
     m_value_len := m_value_len self;
     m_pivotcol_type := m_pivotcol_type self;
     m_pivotcol_len := m_pivotcol_len self; m_map_values := m |}.

Definition getMapSize (self : PivotMapTable) : nat :=
  size (m_map_values self).

(** *** The serializer

    A [vdb_udf::Serializer] is the sequence of the items written to it;
    [>>] reads them back from the front, in order, and fails on an item of
    the other kind. *)
Inductive item :=
| SInt (z : int_t)
| SString (s : string).

Abbreviation Serializer := (list item).

Definition read_int (s : Serializer) : option (int_t * Serializer) :=
  match s with
  | SInt z :: s' => Some (z, s')
  | _ => None
  end.

Definition read_string (s : Serializer) : option (string * Serializer) :=
  match s with
  | SString k :: s' => Some (k, s')
  | _ => None
  end.

(** The loop of [serialize] over the entries, in the order [it] visits
    them. *)
Fixpoint serialize_entries (its : list (string * Z)) (s : Serializer) :
    Serializer :=
  match its with
  | [] => s
  | (first, second) :: its' =>
      serialize_entries its' (s ++ [SString first] ++ [SInt second])
  end.

(** [serialize], for a given iteration order of the unordered map. *)
Definition serialize_in_order (its : list (string * Z))
    (self : PivotMapTable) (s : Serializer) : Serializer :=
  let entries := Z.of_nat (size (m_map_values self)) in
  let s := s ++ [SInt (m_pivotcol_type self); SInt (m_pivotcol_len self);
                 SInt (m_value_type self); SInt (m_value_len self);
                 SInt entries] in
  serialize_entries its s.

Definition serialize (self : PivotMapTable) (s : Serializer) : Serializer :=
  serialize_in_order (map_to_list (m_map_values self)) self s.

(** The loop of [deserialize]: [n] iterations remain. *)
Fixpoint deserialize_entries (n : nat) (m : gmap string Z) (s : Serializer) :
    option (gmap string Z * Serializer) :=
  match n with
  | O => Some (m, s)
  | S n' =>
      match read_string s with
      | Some (val, s1) =>
          match read_int s1 with
          | Some (data, s2) =>
              deserialize_entries n' (umap_insert val data m) s2
          | None => None
          end
      | None => None
      end
  end.

Definition deserialize (self : PivotMapTable) (s : Serializer) :
    option (PivotMapTable * Serializer) :=
  '(pivotcol_type, s) ← read_int s;
  '(pivotcol_len, s) ← read_int s;
  '(value_type, s) ← read_int s;
  '(value_len, s) ← read_int s;
  '(entries, s) ← read_int s;
  '(m, s) ← deserialize_entries (Z.to_nat entries) (m_map_values self) s;
  Some ({| m_key_col_idx := m_key_col_idx self;
           m_value_type := value_type; m_value_len := value_len;
           m_pivotcol_type := pivotcol_type; m_pivotcol_len := pivotcol_len;
           m_map_values := m |}, s).

(** *** The value key encoder, as [add] writes it *)

(** The [switch] of [PivotMapTable::add] and the assignment that follows
    it: the key of column 0 of a catalog row. *)
Definition add_key `{vdb_udf} (pivotcol_type : int_t) (row_p : RowDesc) :
    string :=
  let '(key, keycvt, convert_final) :=
    if pivotcol_type =? TypeTimeStamp then
      ("", ostream_int (cast_bigint (getTimeStamp row_p 0)), true)
    else if pivotcol_type =? TypeBigInt then
      ("", ostream_int (getBigInt row_p 0), true)
    else if pivotcol_type =? TypeNumeric then
      ("", ostream_int128 (getNumeric row_p 0), true)
    else if pivotcol_type =? TypeInt then
      ("", ostream_int (getInt row_p 0), true)
    else if pivotcol_type =? TypeDate then
      ("", ostream_int (getDate row_p 0), true)
    else if pivotcol_type =? TypeSmallInt then
      ("", ostream_int (getSmallInt row_p 0), true)
    else if pivotcol_type =? TypeFloat4 then
      ("", ostream_float4 (getFloat4 row_p 0), true)
    else if pivotcol_type =? TypeFloat8 then
      ("", ostream_float8 (getFloat8 row_p 0), true)
    else if (pivotcol_type =? TypeVarChar) || (pivotcol_type =? TypeBpChar)
    then (getValueAsString row_p 0, "", false)
    else ("", "", true) in
  if convert_final : bool then keycvt else key.

Definition add `{vdb_udf} (self : PivotMapTable) (row_p : RowDesc)
    (colpos : int_t) : PivotMapTable :=
  let key := add_key (m_pivotcol_type self) row_p in
  set_map_values self (umap_insert key colpos (m_map_values self)).

Definition findcolumnoffset (self : PivotMapTable) (key : string) : int_t :=
  match m_map_values self !! key with
  | None => -1
  | Some second => second
  end.

(** ** PivotClass: the table function *)

Definition NPV_COLQRY : string := "column_list".
Definition NPV_GROUPCOL : string := "groupcol".
Definition NPV_PIVOTCOL : string := "pivotcol".
Definition NPV_PIVOTVAL : string := "pivotval".

Inductive ParameterKind := npColRef | npColRefList | npConst.

(** [vdb_udf::NamedParameterValue]: its kind, the column it refers to, the
    columns [fillColumnIndexVector] yields and its value as a string. *)
Record NamedParameterValue := {
  kindOfParameter : ParameterKind;
  getColRef : ColumnIndex;
  fillColumnIndexVector : list ColumnIndex;
  npv_getValueAsString : string
}.

(** What [sql.open] and the [sql.fetch] calls after it return. *)
Record QueryResult := {
  qr_schema : list Column;
  qr_rows : list RowDesc
}.

(** The part of [vdb_udf::TableArg] the commands read. *)
Record TableArg := {
  getNamedParameterValue : string -> option NamedParameterValue;
  getInputColumn : ColumnIndex -> Column;
  sql_open : string -> QueryResult;
  getSessionData : PivotMapTable
}.

(** [vdb_udf::RowStore]: the content [alloc] hands out, the number of row
    buffers allocated and not yet freed, and the rows [put] so far. *)
Record RowStore := {
  rs_fresh : RowDesc;
  rs_allocated : nat;
  rs_put : list RowDesc
}.

Definition rs_alloc (st : RowStore) : RowDesc * RowStore :=
  (rs_fresh st,
   {| rs_fresh := rs_fresh st; rs_allocated := S (rs_allocated st);
      rs_put := rs_put st |}).

Definition rs_free (st : RowStore) (rd : RowDesc) : RowStore :=
  {| rs_fresh := rs_fresh st; rs_allocated := pred (rs_allocated st);
     rs_put := rs_put st |}.

Definition rs_put_row (st : RowStore) (rd : RowDesc) : RowStore :=
  {| rs_fresh := rs_fresh st; rs_allocated := rs_allocated st;
     rs_put := rs_put st ++ [rd] |}.

(** The vector [pivotValColDescs] is kept as two members:
    [pivotValColDescs] is its storage, slot by slot, as [operator[]] reads
    and writes it, and [pivotValColDescs_size] is what [size()] returns.
    [validate] only calls [reserve] and then stores through [operator[]],
    which fills the reserved slots and leaves the size as it was. *)
Record PivotParameters := {
  grpCols : list ColumnIndex;
  pivotColIdx : ColumnIndex;
  pivotColType : int_t;
  pivotValCols : list ColumnIndex;
  numpivotValCols : int_t;
  collistquery : string;
  pivotValColDescs : list Column;
  pivotValColDescs_size : nat
}.

(** A [PivotParameters] as declared, before [validate] fills it. *)
Definition PivotParameters_new : PivotParameters :=
  {| grpCols := []; pivotColIdx := 0; pivotColType := 0; pivotValCols := [];
     numpivotValCols := 0; collistquery := ""; pivotValColDescs := [];
     pivotValColDescs_size := 0 |}.

(** The copy of a [PivotParameters]: each vector is copied with the
    elements it has, so of [pivotValColDescs] the first [size()] slots. *)
Definition PivotParameters_copy (p : PivotParameters) : PivotParameters :=
  {| grpCols := grpCols p; pivotColIdx := pivotColIdx p;
     pivotColType := pivotColType p; pivotValCols := pivotValCols p;
     numpivotValCols := numpivotValCols p; collistquery := collistquery p;
     pivotValColDescs :=
       take (pivotValColDescs_size p) (pivotValColDescs p);
     pivotValColDescs_size := pivotValColDescs_size p |}.

Record PivotClass := {
  m_map : PivotMapTable;
  m_pivotParameters : PivotParameters;
  m_first_time : bool;
  m_out_rd : RowDesc
}.

(** [PivotClass(arg, pivotParameters)] and [~PivotClass()]. *)
Definition PivotClass_new (arg : TableArg) (store : RowStore)
    (pivotParameters : PivotParameters) : PivotClass * RowStore :=
  let '(out_rd, store) := rs_alloc store in
  ({| m_map := getSessionData arg;
      m_pivotParameters := PivotParameters_copy pivotParameters;
      m_first_time := true; m_out_rd := out_rd |}, store).

Definition PivotClass_delete (self : PivotClass) (store : RowStore) :
    RowStore :=
  rs_free store (m_out_rd self).

(** The [switch] of [PivotClass::process] and the assignment that follows
    it: the key of the pivot column of an input row. *)
Definition process_key `{vdb_udf} (pivotColType : int_t) (rd_in : RowDesc)
    (pivotColIdx : ColumnIndex) : string :=
  let '(key, keycvt, convert_final) :=
    if pivotColType =? TypeTimeStamp then
      ("", ostream_int (cast_bigint (getTimeStamp rd_in pivotColIdx)), true)
    else if pivotColType =? TypeBigInt then
      ("", ostream_int (getBigInt rd_in pivotColIdx), true)
    else if pivotColType =? TypeNumeric then
      ("", ostream_int128 (getNumeric rd_in pivotColIdx), true)
    else if pivotColType =? TypeInt then
      ("", ostream_int (getInt rd_in pivotColIdx), true)
    else if pivotColType =? TypeDate then
      ("", ostream_int (getDate rd_in pivotColIdx), true)
    else if pivotColType =? TypeSmallInt then
      ("", ostream_int (getSmallInt rd_in pivotColIdx), true)
    else if pivotColType =? TypeFloat4 then
      ("", ostream_float4 (getFloat4 rd_in pivotColIdx), true)
    else if pivotColType =? TypeFloat8 then
      ("", ostream_float8 (getFloat8 rd_in pivotColIdx), true)
    else if (pivotColType =? TypeVarChar) || (pivotColType =? TypeBpChar)
    then (getValueAsString rd_in pivotColIdx, "", false)
    else ("", "", true) in
  if convert_final : bool then keycvt else key.

(** First loop of [process]: output the grouping columns. *)
Fixpoint copy_grp_cols (cols : list ColumnIndex) (rd_in : RowDesc)
    (out_rd : RowDesc) (outIdx : ColumnIndex) : RowDesc * ColumnIndex :=
  match cols with
  | [] => (out_rd, outIdx)
  | inColIdx :: cols' =>
      copy_grp_cols cols' rd_in
        (copyColumnValue rd_in inColIdx out_rd outIdx) (outIdx + 1)
  end.

(** Second loop of [process]: set all pivoted elements to null; [n]
    iterations remain. *)
Fixpoint null_slots (n : nat) (out_rd : RowDesc) (outIdx : ColumnIndex) :
    RowDesc * ColumnIndex :=
  match n with
  | O => (out_rd, outIdx)
  | S n' => null_slots n' (setNull out_rd outIdx) (outIdx + 1)
  end.

(** The body of [if (m_first_time)]. *)
Definition first_time_init (self : PivotClass) (rd_in : RowDesc) : RowDesc :=
  let p := m_pivotParameters self in
  let '(out_rd, outIdx) := copy_grp_cols (grpCols p) rd_in (m_out_rd self) 0 in
  let n := Z.of_nat (getMapSize (m_map self)) * numpivotValCols p in
  fst (null_slots (Z.to_nat n) out_rd outIdx).

(** Third loop of [process]: copy the value columns into the block of the
    key; [n] iterations remain and [c_coloffset] is the loop variable. *)
Fixpoint copy_val_cols (n : nat) (c_coloffset : int_t) (p : PivotParameters)
    (numGrpCols outIdx myoffset : int_t) (rd_in out_rd : RowDesc) :
    result RowDesc :=
  match n with
  | O => Ok out_rd
  | S n' =>
      let thiscolpos := outIdx + myoffset * numpivotValCols p + c_coloffset in
      if thiscolpos <? numGrpCols then Err (OffsetRangeError thiscolpos)
      else
        copy_val_cols n' (c_coloffset + 1) p numGrpCols outIdx myoffset rd_in
          (copyColumnValue rd_in
             (nth (Z.to_nat c_coloffset) (pivotValCols p) 0) out_rd thiscolpos)
  end.

(** The output row once the [if (m_first_time)] statement is past. *)
Definition after_first_time (self : PivotClass) (rd_in : RowDesc) : RowDesc :=
  if m_first_time self then first_time_init self rd_in else m_out_rd self.

Definition process `{vdb_udf} (self : PivotClass) (rd_in : RowDesc) :
    result PivotClass :=
  let p := m_pivotParameters self in
  let numGrpCols := Z.of_nat (length (grpCols p)) in
  let out_rd := after_first_time self rd_in in
  let outIdx := numGrpCols in
  if isNull rd_in (pivotColIdx p) then Err NullPivotKey
  else
    let key := process_key (pivotColType p) rd_in (pivotColIdx p) in
    let myoffset := findcolumnoffset (m_map self) key in
    if myoffset <? 0 then Err (PivotKeyNotFound key)
    else
      do out_rd <- copy_val_cols (Z.to_nat (numpivotValCols p)) 0 p
                     numGrpCols outIdx myoffset rd_in out_rd;
      Ok {| m_map := m_map self; m_pivotParameters := p;
            m_first_time := false; m_out_rd := out_rd |}.

Definition flush (self : PivotClass) (store : RowStore) : RowStore :=
  rs_put_row store (m_out_rd self).

Definition validate (arg : TableArg) (pivotParameters : PivotParameters)
    (start_cmd : bool) : result PivotParameters :=
  do pc <-
    match getNamedParameterValue arg NPV_PIVOTCOL with
    | None => Err (ParameterError NPV_PIVOTCOL)
    | Some npvPivotCol =>
        match kindOfParameter npvPivotCol with
        | npColRef =>
            let idx := getColRef npvPivotCol in
            Ok (idx,
                if start_cmd then pivotColType pivotParameters
                else col_type (getInputColumn arg idx))
        | _ => Err (ParameterError NPV_PIVOTCOL)
        end
    end;
  do grp <-
    match getNamedParameterValue arg NPV_GROUPCOL with
    | None => Err (ParameterError NPV_GROUPCOL)
    | Some npvGrpCol => Ok (fillColumnIndexVector npvGrpCol)
    end;
  do qry <-
    match getNamedParameterValue arg NPV_COLQRY with
    | None => Err (ParameterError NPV_COLQRY)
    | Some npvColQuery => Ok (npv_getValueAsString npvColQuery)
    end;
  do vals <-
    match getNamedParameterValue arg NPV_PIVOTVAL with
    | None => Err (ParameterError NPV_COLQRY)
    | Some npvPivotVal =>
        match kindOfParameter npvPivotVal with
        | npConst => Err (ParameterError NPV_PIVOTVAL)
        | _ =>
            let cols := fillColumnIndexVector npvPivotVal in
            Ok (cols,
                if start_cmd then pivotValColDescs pivotParameters
                else
                  map (getInputColumn arg) cols
                  ++ drop (length cols) (pivotValColDescs pivotParameters))
        end
    end;
  Ok {| grpCols := grp; pivotColIdx := fst pc; pivotColType := snd pc;
        pivotValCols := fst vals;
        numpivotValCols := Z.of_nat (length (fst vals));
        collistquery := qry; pivotValColDescs := snd vals;
        pivotValColDescs_size := pivotValColDescs_size pivotParameters |}.

(** The [while] loop of [StartCmd]: [coloffset] is the running ordinal. *)
Fixpoint add_rows `{vdb_udf} (tblMap : PivotMapTable) (rows : list RowDesc)
    (coloffset : int_t) : PivotMapTable :=
  match rows with
  | [] => tblMap
  | rowp :: rows' => add_rows (add tblMap rowp coloffset) rows' (coloffset + 1)
  end.

(** [StartCmd]: the result is the object handed to [arg.setSessionData]. *)
Definition StartCmd `{vdb_udf} (arg : TableArg) : result PivotMapTable :=
  let tblMap := PivotMapTable_new in
  let coloffset := 0 in
  do pivotParameters <- validate arg PivotParameters_new true;
  let res := sql_open arg (collistquery pivotParameters) in
  do val_col_p <-
    match qr_schema res !! 0%nat with
    | Some c => Ok c
    | None => Err SchemaIndexError
    end;
  let tblMap :=
    setPivotColType tblMap (col_type val_col_p) (col_length val_col_p) in
  Ok (add_rows tblMap (qr_rows res) coloffset).

Definition CreateCmd (arg : TableArg) (store : RowStore) :
    result (PivotClass * RowStore) :=
  do pivotParameters <- validate arg PivotParameters_new false;
  Ok (PivotClass_new arg store pivotParameters).

Definition FinalizeCmd (functor : PivotClass) (store : RowStore) : RowStore :=
  flush functor store.

(** [case vdb_udf::Destroy: arg.destroyFunctor()]. *)
Definition DestroyCmd (functor : PivotClass) (store : RowStore) : RowStore :=
  PivotClass_delete functor store.

(** ** last-day.cpp *)

(** The date type of [padb_udf.hpp] and the four date functions
    [calc_lastdayofmonth] calls. *)
Class padb_udf := {
  date_t : Type;
  extract_year_from_date : date_t -> Z;
  extract_month_from_date : date_t -> Z;
  extract_day_from_date : date_t -> Z;
  date_plus_days : date_t -> Z -> date_t
}.

(** [#define isleap(y)]; [%] truncates towards zero. *)
Definition isleap (y : Z) : bool :=
  (Z.rem y 4 =? 0) && (negb (Z.rem y 100 =? 0) || (Z.rem y 400 =? 0)).

Definition m_last_days : list Z := [31; 28; 31; 30; 31; 30; 31; 31; 30; 31; 30; 31].

Definition calc_lastdayofmonth `{padb_udf} (in_date : date_t) : date_t :=
  let cyear := extract_year_from_date in_date in
  let cmon := extract_month_from_date in_date in
  let cday := extract_day_from_date in_date in
  if isleap cyear && (cmon =? 2) then date_plus_days in_date (29 - cday)
  else
    date_plus_days in_date (nth (Z.to_nat (cmon - 1)) m_last_days 0 - cday).

(** [last_day]: [None] is the SQL NULL of [aux.isNull(0)] and of
    [aux.retDateNull()]. *)
Definition last_day `{padb_udf} (in_date : option date_t) : option date_t :=
  match in_date with
  | None => None
  | Some in_date => Some (calc_lastdayofmonth in_date)
  end.

(** *** The Gregorian calendar, to state what the host functions do *)

(** A leap year: divisible by 4 and not by 100 unless also by 400. *)
Definition leap_year (y : Z) : Prop :=
  (4 | y) ∧ (¬ (100 | y) ∨ (400 | y)).

Definition leap_yearb (y : Z) : bool :=
  (y mod 4 =? 0) && (negb (y mod 100 =? 0) || (y mod 400 =? 0)).

Definition month_length (y m : Z) : Z :=
  if m =? 2 then (if leap_yearb y then 29 else 28)
  else if (m =? 4) || (m =? 6) || (m =? 9) || (m =? 11) then 30
  else 31.

(** The contract of [date_plus_days] that [calc_lastdayofmonth] relies on:
    moving by [k] days inside the month of [d] changes the day of the month
    by [k] and nothing else. *)
Definition plus_days_within_month `{padb_udf} : Prop :=
  ∀ (d : date_t) (k : Z),
    1 <= extract_day_from_date d + k
      <= month_length (extract_year_from_date d) (extract_month_from_date d) →
    extract_year_from_date (date_plus_days d k) = extract_year_from_date d
    ∧ extract_month_from_date (date_plus_days d k) = extract_month_from_date d
    ∧ extract_day_from_date (date_plus_days d k)
      = extract_day_from_date d + k.

(** A calendar that meets the contract: civil dates, moved a day at a
    time. *)
Record civil := { c_year : Z; c_month : Z; c_day : Z }.

Definition civil_next (d : civil) : civil :=
  if c_day d <? month_length (c_year d) (c_month d) then
    {| c_year := c_year d; c_month := c_month d; c_day := c_day d + 1 |}
  else if c_month d <? 12 then
    {| c_year := c_year d; c_month := c_month d + 1; c_day := 1 |}
  else {| c_year := c_year d + 1; c_month := 1; c_day := 1 |}.

Definition civil_prev (d : civil) : civil :=
  if 1 <? c_day d then
    {| c_year := c_year d; c_month := c_month d; c_day := c_day d - 1 |}
  else if 1 <? c_month d then
    {| c_year := c_year d; c_month := c_month d - 1;
       c_day := month_length (c_year d) (c_month d - 1) |}
  else {| c_year := c_year d - 1; c_month := 12; c_day := 31 |}.

Definition civil_plus_days (d : civil) (k : Z) : civil :=
  if 0 <=? k then Nat.iter (Z.to_nat k) civil_next d
  else Nat.iter (Z.to_nat (- k)) civil_prev d.

Definition civil_calendar : padb_udf :=
  {| date_t := civil;
     extract_year_from_date := c_year;
     extract_month_from_date := c_month;
     extract_day_from_date := c_day;
     date_plus_days := civil_plus_days |}.

(** ** Worked data

    A host with the enumerators numbered in the order of the case labels,
    and the example of one grouping column (region, column 0), the pivot
    column (status, column 1) and one value column (amount, column 2), with
    the catalog query returning OPEN and CLOSED. *)
Definition example_host : vdb_udf :=
  {| TypeTimeStamp := 1; TypeBigInt := 2; TypeNumeric := 3; TypeInt := 4;
     TypeDate := 5; TypeSmallInt := 6; TypeFloat4 := 7; TypeFloat8 := 8;
     TypeVarChar := 9; TypeBpChar := 10;
     ostream_float4 := fun bits => pretty bits;
     ostream_float8 := fun bits => pretty bits |}.

(** A type tag of the host that is none of the case labels. *)
Definition example_other_type : int_t := 11.

Definition row_of (cells : list (option Datum)) : RowDesc :=
  fun idx => if idx <? 0 then None else mjoin (cells !! Z.to_nat idx).

Definition example_catalog : QueryResult :=
  {| qr_schema := [ {| col_type := 9; col_length := 16 |};
                    {| col_type := 9; col_length := 16 |} ];
     qr_rows := [ row_of [Some (DString "OPEN"); Some (DString "open_amt")];
                  row_of [Some (DString "CLOSED");
                          Some (DString "closed_amt")] ] |}.

Definition example_params (name : string) : option NamedParameterValue :=
  if String.eqb name NPV_PIVOTCOL then
    Some {| kindOfParameter := npColRef; getColRef := 1;
            fillColumnIndexVector := [1]; npv_getValueAsString := "" |}
  else if String.eqb name NPV_GROUPCOL then
    Some {| kindOfParameter := npColRef; getColRef := 0;
            fillColumnIndexVector := [0]; npv_getValueAsString := "" |}
  else if String.eqb name NPV_COLQRY then
    Some {| kindOfParameter := npConst; getColRef := 0;
            fillColumnIndexVector := [];
            npv_getValueAsString := "select status, label from keys" |}
  else if String.eqb name NPV_PIVOTVAL then
    Some {| kindOfParameter := npColRef; getColRef := 2;
            fillColumnIndexVector := [2]; npv_getValueAsString := "" |}
  else None.

Definition example_input_column (idx : ColumnIndex) : Column :=
  if idx =? 2 then {| col_type := 4; col_length := 4 |}
  else {| col_type := 9; col_length := 16 |}.

(** The map [StartCmd] builds from [example_catalog]. *)
Definition example_map : PivotMapTable :=
  {| m_key_col_idx := 0; m_value_type := 0; m_value_len := 0;
     m_pivotcol_type := 9; m_pivotcol_len := 16;
     m_map_values := <["OPEN" := 0]> (<["CLOSED" := 1]> ∅) |}.

Definition example_arg (catalog : QueryResult) : TableArg :=
  {| getNamedParameterValue := example_params;
     getInputColumn := example_input_column;
     sql_open := fun _ => catalog;
     getSessionData := example_map |}.

Definition example_store : RowStore :=
  {| rs_fresh := fun _ => None; rs_allocated := 0; rs_put := [] |}.

Definition example_row (region status : string) (amount : Z) : RowDesc :=
  row_of [Some (DString region); Some (DString status); Some (DInt amount)].

(** The processor [CreateCmd] makes for the example. *)
Definition example_processor : PivotClass :=
  {| m_map := example_map;
     m_pivotParameters :=
       {| grpCols := [0]; pivotColIdx := 1; pivotColType := 9;
          pivotValCols := [2]; numpivotValCols := 1;
          collistquery := "select status, label from keys";
          pivotValColDescs := []; pivotValColDescs_size := 0 |};
     m_first_time := true;
     m_out_rd := fun _ => None |}.

(** A catalog whose two rows carry the same key, and one without rows. *)
Definition example_dup_catalog : QueryResult :=
  {| qr_schema := [ {| col_type := 9; col_length := 16 |};
                    {| col_type := 9; col_length := 16 |} ];
     qr_rows := [ row_of [Some (DString "OPEN"); Some (DString "open_amt")];
                  row_of [Some (DString "OPEN");
                          Some (DString "open_again")] ] |}.

Definition example_empty_catalog : QueryResult :=
  {| qr_schema := [ {| col_type := 9; col_length := 16 |};
                    {| col_type := 9; col_length := 16 |} ];
     qr_rows := [] |}.

(** A processor whose pivot column has a type outside the case labels, with
    a map that holds the empty key. *)
Definition example_other_processor : PivotClass :=
  {| m_map :=
       {| m_key_col_idx := 0; m_value_type := 0; m_value_len := 0;
          m_pivotcol_type := example_other_type; m_pivotcol_len := 1;
          m_map_values := <["" := 0]> ∅ |};
     m_pivotParameters :=
       {| grpCols := [0]; pivotColIdx := 1;
          pivotColType := example_other_type;
          pivotValCols := [2]; numpivotValCols := 1;
          collistquery := "select status, label from keys";
          pivotValColDescs := []; pivotValColDescs_size := 0 |};
     m_first_time := true;
     m_out_rd := fun _ => None |}.

Definition example_date : civil :=
  {| c_year := 2024; c_month := 2; c_day := 10 |}.

(** ** pivot.cpp, continued: DescribeCmd and the rows of a partition *)

(** A column of the output schema: a clone of an input column
    ([arg.copyColumnSchema]) or a column made by [arg.addOutputColumn] from
    the members of a descriptor and then given a name. *)
Inductive OutputColumn :=
| CopiedColumn (inColIdx : ColumnIndex)
| AddedColumn (desc : Column) (name : string).

(** What [DescribeCmd] declares through [arg]. *)
Record Declarations := {
  partitionByColumns : list ColumnIndex;
  orderByColumns : list ColumnIndex;
  outputColumns : list OutputColumn;
  globalPartitioning : bool;
  sessionCommands : bool
}.

Definition Declarations_new : Declarations :=
  {| partitionByColumns := []; orderByColumns := []; outputColumns := [];
     globalPartitioning := false; sessionCommands := false |}.

(** First loop of [DescribeCmd]: partition by, order by and clone each
    grouping column. *)
Fixpoint describe_grp_cols (cols : list ColumnIndex) (d : Declarations) :
    Declarations :=
  match cols with
  | [] => d
  | inColIdx :: cols' =>
      describe_grp_cols cols'
        {| partitionByColumns := partitionByColumns d ++ [inColIdx];
           orderByColumns := orderByColumns d ++ [inColIdx];
           outputColumns := outputColumns d ++ [CopiedColumn inColIdx];
           globalPartitioning := globalPartitioning d;
           sessionCommands := sessionCommands d |}
  end.

(** Second loop of [DescribeCmd]: the label columns of the catalog query
    must be strings; [n] iterations remain. *)
Fixpoint check_label_cols `{vdb_udf} (n : nat) (s_colcount : int_t)
    (schema : list Column) : result unit :=
  match n with
  | O => Ok tt
  | S n' =>
      match schema !! Z.to_nat (s_colcount + 1) with
      | None => Err SchemaIndexError
      | Some c =>
          if negb ((col_type c =? TypeVarChar) || (col_type c =? TypeBpChar))
          then Err SchemaError
          else check_label_cols n' (s_colcount + 1) schema
      end
  end.

(** The [for] loop inside the [while] loop of [DescribeCmd]: one output
    column per value column, named by the label of the catalog row. *)
Fixpoint describe_row_cols (n : nat) (r_colcount : int_t)
    (p : PivotParameters) (rowp : RowDesc) (d : Declarations) : Declarations :=
  match n with
  | O => d
  | S n' =>
      let desc :=
        nth (Z.to_nat r_colcount) (pivotValColDescs p)
          {| col_type := 0; col_length := 0 |} in
      let val := getValueAsString rowp (r_colcount + 1) in
      describe_row_cols n' (r_colcount + 1) p rowp
        {| partitionByColumns := partitionByColumns d;
           orderByColumns := orderByColumns d;
           outputColumns := outputColumns d ++ [AddedColumn desc val];
           globalPartitioning := globalPartitioning d;
           sessionCommands := sessionCommands d |}
  end.

(** The [while] loop of [DescribeCmd]. *)
Fixpoint describe_rows (rows : list RowDesc) (p : PivotParameters)
    (d : Declarations) : Declarations :=
  match rows with
  | [] => d
  | rowp :: rows' =>
      describe_rows rows' p
        (describe_row_cols (Z.to_nat (numpivotValCols p)) 0 p rowp d)
  end.

(** [DescribeCmd], on the declarations [d] that [arg] holds so far. *)
Definition DescribeCmd `{vdb_udf} (arg : TableArg) (d : Declarations) :
    result Declarations :=
  do pivotParameters <- validate arg PivotParameters_new false;
  let d := describe_grp_cols (grpCols pivotParameters) d in
  let d :=
    {| partitionByColumns := partitionByColumns d;
       orderByColumns := orderByColumns d;
       outputColumns := outputColumns d;
       globalPartitioning := true;
       sessionCommands := sessionCommands d |} in
  let res := sql_open arg (collistquery pivotParameters) in
  let schema := qr_schema res in
  do size_ok <-
    (if Z.of_nat (length schema) <? numpivotValCols pivotParameters + 1
     then Err SchemaError else Ok tt);
  do labels_ok <-
    check_label_cols (Z.to_nat (numpivotValCols pivotParameters)) 0 schema;
  let d := describe_rows (qr_rows res) pivotParameters d in
  Ok {| partitionByColumns := partitionByColumns d;
        orderByColumns := orderByColumns d;
        outputColumns := outputColumns d;
        globalPartitioning := globalPartitioning d;
        sessionCommands := true |}.

(** Column [i] of the catalog schema exists and is a string column. *)
Definition label_is_string `{vdb_udf} (schema : list Column) (i : nat) :
    Prop :=
  ∃ c, schema !! i = Some c
       ∧ (col_type c = TypeVarChar ∨ col_type c = TypeBpChar).

(** The host hands the rows of a partition to [process] one after the
    other; the first failure ends the query. *)
Fixpoint process_rows `{vdb_udf} (self : PivotClass) (rows : list RowDesc) :
    result PivotClass :=
  match rows with
  | [] => Ok self
  | rd_in :: rows' => do self' <- process self rd_in; process_rows self' rows'
  end.

(** The offset [process] finds for a row. *)
Definition row_offset `{vdb_udf} (self : PivotClass) (rd_in : RowDesc) :
    int_t :=
  let p := m_pivotParameters self in
  findcolumnoffset (m_map self)
    (process_key (pivotColType p) rd_in (pivotColIdx p)).

(** ** last-day.cpp, continued: format_duration and normalize_time *)

(** [padb_udf::varchar_t]: a character buffer and the length in use. *)
Record varchar_t := { str : list Ascii.ascii; len : Z }.

(** The [while] loop of [vdup]; [n] iterations remain.  [copied] and
    [offset] advance together.  A write past the end of the buffer, which
    C leaves undefined, changes nothing here. *)
Fixpoint vdup_loop (n : nat) (copied offset : nat) (dst_str src : list Ascii.ascii) :
    list Ascii.ascii :=
  match n with
  | O => dst_str
  | S n' =>
      vdup_loop n' (S copied) (S offset)
        (<[copied := nth offset src Ascii.zero]> dst_str) src
  end.

(** [vdup]; [src] is the characters of the C string before its NUL. *)
Definition vdup (dst : varchar_t) (src : list Ascii.ascii) : varchar_t :=
  let len := length src in
  {| str := vdup_loop len 0 0 (str dst) src; len := Z.of_nat len |}.

(** [printf]'s conversion [%02d]: decimal, at least two characters, padded
    on the left with a zero (a sign counts as a character). *)
Definition printf_02d (x : Z) : string :=
  if x <? 0 then pretty x
  else if x <? 10 then "0" +:+ pretty x
  else pretty x.

(** [snprintf(lbuf, 16, "%02d:%02d:%02d", hours, minutes, seconds)] on the
    zeroed [lbuf]: at most 15 characters are kept. *)
Definition snprintf_duration (hours minutes seconds : Z) : string :=
  String.substring 0 15
    (printf_02d hours +:+ ":" +:+ printf_02d minutes +:+ ":"
     +:+ printf_02d seconds).

(** The three fields [format_duration] prints; [/] truncates. *)
Definition duration_fields (nsecs : Z) : Z * Z * Z :=
  if negb (nsecs =? 0) then
    let hours := nsecs ÷ 3600 in
    let minutes := (nsecs - hours * 3600) ÷ 60 in
    let seconds := nsecs - hours * 3600 - minutes * 60 in
    (hours, minutes, seconds)
  else (0, 0, 0).

(** [format_duration]: [None] is the SQL NULL; [getRetVarCharBuf] is the
    buffer the host returns for the length asked for. *)
Definition format_duration (getRetVarCharBuf : Z -> varchar_t)
    (nsecs : option Z) : option varchar_t :=
  match nsecs with
  | None => None
  | Some nsecs =>
      let '(hours, minutes, seconds) := duration_fields nsecs in
      let lbuf := snprintf_duration hours minutes seconds in
      let maxlen := Z.of_nat (String.length lbuf) in
      let retval := getRetVarCharBuf maxlen in
      Some (vdup retval (String.list_ascii_of_string lbuf))
  end.

(** The text a [varchar_t] holds. *)
Definition varchar_text (v : varchar_t) : string :=
  String.string_of_list_ascii (take (Z.to_nat (len v)) (str v)).

(** The host function [normalize_time] calls. *)
Class padb_udf_time := {
  microsecondsBetween : Z -> Z -> Z
}.

(** Timestamps count microseconds: the difference of two of them is what
    [microsecondsBetween] returns. *)
Definition microseconds_are_differences `{padb_udf_time} : Prop :=
  ∀ a b : Z, microsecondsBetween a b = a - b.

(** What a scalar function hands back: [aux.ret...Null()],
    [aux.ret...Val(v)], or the failure of [aux.throwError]. *)
Inductive scalar_result (A : Type) :=
| RetNull
| RetVal (v : A)
| Raise (func msg : string).
Arguments RetNull {A}.
Arguments RetVal {A} v.
Arguments Raise {A} func msg.

Definition MICROSECOND : Z := 1000000.

(** The cast to [padb_udf::int_t], the 32-bit integer of the host. *)
Definition cast_int (x : Z) : Z := wrap_signed 32 x.

(** [normalize_time]; an argument that is SQL NULL is [None]. *)
Definition normalize_time `{padb_udf_time} (in_ts base_ts : option Z)
    (interval_spec : option Z) : scalar_result Z :=
  match in_ts, base_ts, interval_spec with
  | Some in_ts, Some base_ts, Some interval_spec =>
      if base_ts >? in_ts then
        Raise "normalize_timestamp"
          "Base timestamp cannot be greater than input timestamp"
      else
        let ts_diff := microsecondsBetween in_ts base_ts in
        if ts_diff =? 0 then RetVal in_ts
        else if ts_diff <? interval_spec * MICROSECOND then RetVal base_ts
        else
          let nearest_lb_remain :=
            cast_int (Z.rem ts_diff (interval_spec * MICROSECOND)) in
          if nearest_lb_remain =? 0 then RetVal in_ts
          else
            let nearest_lb_multiple :=
              cast_int (ts_diff ÷ (interval_spec * MICROSECOND)) in
            RetVal (base_ts
                    + interval_spec * nearest_lb_multiple * MICROSECOND)
  | _, _, _ => RetNull
  end.

(** A host whose timestamps are microsecond counts. *)
Definition microsecond_clock : padb_udf_time :=
  {| microsecondsBetween := fun a b => a - b |}.

(** The two digits of a number below one hundred. *)
Definition two_digits (x : Z) : string :=
  String (Ascii.ascii_of_nat (48 + Z.to_nat (x / 10)))
    (String (Ascii.ascii_of_nat (48 + Z.to_nat (x mod 10))) "").

(** A buffer of [n] blanks, for the examples. *)
Definition example_buffer (n : Z) : varchar_t :=
  {| str := replicate (Z.to_nat n) Ascii.Space; len := 0 |}.

(** A processor whose map holds the key OPEN with a negative offset. *)
Definition example_negative_processor : PivotClass :=
  {| m_map :=
       {| m_key_col_idx := 0; m_value_type := 0; m_value_len := 0;
          m_pivotcol_type := 9; m_pivotcol_len := 16;
          m_map_values := <["OPEN" := -3]> ∅ |};
     m_pivotParameters := m_pivotParameters example_processor;
     m_first_time := true;
     m_out_rd := fun _ => None |}.

(** * Properties *)

(** ** The value key encoder *)

Section Encoder.
Context `{host : vdb_udf}.

(** C3. The key [PivotMapTable::add] computes from column 0 of a catalog
    row and the key [PivotClass::process] computes from the pivot column of
    an input row are the same string whenever the two columns hold the same
    value and the same type tag is used, for every type tag (the supported
    ones in particular). *)
Theorem process_key_add_key (ty : int_t) (row_p rd_in : RowDesc)
    (pivotColIdx : ColumnIndex) :
  rd_in pivotColIdx = row_p 0 →
  process_key ty rd_in pivotColIdx = add_key ty row_p.
Proof.
  intros Hcell.
  unfold process_key, add_key, getTimeStamp, getBigInt, getNumeric, getInt,
    getDate, getSmallInt, getFloat4, getFloat8, getValueAsString.
  rewrite Hcell. reflexivity.
Qed.

Lemma not_supported_eqb (ty : int_t) :
  ty ∉ supported_types →
  (ty =? TypeTimeStamp) = false ∧ (ty =? TypeBigInt) = false
  ∧ (ty =? TypeNumeric) = false ∧ (ty =? TypeInt) = false
  ∧ (ty =? TypeDate) = false ∧ (ty =? TypeSmallInt) = false
  ∧ (ty =? TypeFloat4) = false ∧ (ty =? TypeFloat8) = false
  ∧ (ty =? TypeVarChar) = false ∧ (ty =? TypeBpChar) = false.
Proof.
  unfold supported_types. intros Hnot.
  repeat split; apply Z.eqb_neq; intros ->; apply Hnot; set_solver.
Qed.

Lemma add_key_default (ty : int_t) (row_p : RowDesc) :
  ty ∉ supported_types → add_key ty row_p = "".
Proof.
  intros Hnot. destruct (not_supported_eqb ty Hnot)
    as (H1 & H2 & H3 & H4 & H5 & H6 & H7 & H8 & H9 & H10).
  unfold add_key. by rewrite H1, H2, H3, H4, H5, H6, H7, H8, H9, H10.
Qed.

Lemma process_key_default (ty : int_t) (rd_in : RowDesc) (idx : ColumnIndex) :
  ty ∉ supported_types → process_key ty rd_in idx = "".
Proof.
  intros Hnot. destruct (not_supported_eqb ty Hnot)
    as (H1 & H2 & H3 & H4 & H5 & H6 & H7 & H8 & H9 & H10).
  unfold process_key. by rewrite H1, H2, H3, H4, H5, H6, H7, H8, H9, H10.
Qed.

Lemma copy_val_cols_not_unsupported n c p numGrpCols outIdx myoffset rd_in
    out_rd :
  copy_val_cols n c p numGrpCols outIdx myoffset rd_in out_rd
  ≠ Err UnsupportedKeyType.
Proof.
  revert c out_rd. induction n as [|n IH]; intros c out_rd; simpl; [done|].
  case_match; [done | apply IH].
Qed.

Lemma process_not_unsupported (self : PivotClass) (rd_in : RowDesc) :
  process self rd_in ≠ Err UnsupportedKeyType.
Proof.
  unfold process.
  destruct (isNull _ _); [done|].
  destruct (_ <? 0); [done|].
  unfold rbind.
  destruct (copy_val_cols _ _ _ _ _ _ _ _) as [out|e] eqn:Hc; [done|].
  intros [= ->]. by apply copy_val_cols_not_unsupported in Hc.
Qed.

(** C6, as the code has it.  For a type tag outside the supported set the
    [default] branch leaves the conversion stream empty: the encoder raises
    no error and the key is the empty string, in [add] and in [process]
    alike; [add] enters the empty key in the map like any other key and
    [process] never raises [UnsupportedKeyType]. *)
Theorem unsupported_type_gives_empty_key (ty : int_t) :
  ty ∉ supported_types →
  (∀ row_p, add_key ty row_p = "")
  ∧ (∀ rd_in idx, process_key ty rd_in idx = "")
  ∧ (∀ self row_p colpos,
       m_pivotcol_type self = ty → m_map_values self !! "" = None →
       m_map_values (add self row_p colpos) !! "" = Some colpos)
  ∧ (∀ self rd_in, process self rd_in ≠ Err UnsupportedKeyType).
Proof.
  intros Hnot. split_and!.
  - intros. by apply add_key_default.
  - intros. by apply process_key_default.
  - intros self row_p colpos <- Hfree. unfold add. simpl.
    rewrite add_key_default by done. unfold umap_insert.
    rewrite Hfree. by rewrite lookup_insert_eq.
  - apply process_not_unsupported.
Qed.

End Encoder.

(** C7 at the value 2^63, the least magnitude beyond the signed 64-bit
    maximum: the operator prints the high segment 9223372 and then the low
    segment 036854775808 as the number 36854775808, so one digit of the
    decimal representation is lost. *)
Theorem ostream_int128_loses_zero :
  INT128_MIN <= 2 ^ 63 <= INT128_MAX
  ∧ 2 ^ 63 > LLONG_MAX
  ∧ ostream_int128 (2 ^ 63) = "922337236854775808"
  ∧ ostream_int (2 ^ 63 ÷ 1000000000000) = "9223372"
  ∧ ostream_int (cast_long (Z.rem (2 ^ 63) 1000000000000)) = "36854775808"
  ∧ pretty (2 ^ 63) = "9223372036854775808".
Proof. by vm_compute. Qed.

Lemma cast_long_small (v : Z) : - 2 ^ 63 <= v < 2 ^ 63 → cast_long v = v.
Proof.
  intros Hv. unfold cast_long, wrap_signed.
  rewrite Z.mod_small; lia.
Qed.

(** Within the signed 64-bit range the operator prints the decimal digits
    of a non-negative value. *)
Lemma ostream_int128_small (v : Z) :
  0 <= v <= LLONG_MAX → ostream_int128 v = pretty v.
Proof.
  unfold LLONG_MAX. intros Hv. simp ostream_int128.
  destruct (Z_lt_dec v 0) as [?|?]; [lia|]. simpl.
  destruct (Z_gt_dec v LLONG_MAX) as [?|?]; [unfold LLONG_MAX in *; lia|].
  simpl. unfold ostream_int. rewrite cast_long_small; [done|lia].
Qed.

(** ** The pivot key map *)

Lemma umap_insert_lookup (key k : string) (v : int_t) (m : gmap string Z) :
  umap_insert key v m !! k
  = match m !! k with
    | Some w => Some w
    | None => if decide (key = k) then Some v else None
    end.
Proof.
  unfold umap_insert. destruct (m !! key) as [w|] eqn:Hkey.
  - destruct (m !! k) eqn:Hk; [done|]. case_decide; [congruence|done].
  - rewrite lookup_insert. case_decide as Heq.
    + subst. by rewrite Hkey.
    + by destruct (m !! k).
Qed.

Lemma serialize_entries_app (its : list (string * Z)) (s : Serializer) :
  serialize_entries its s
  = s ++ flat_map (λ it, [SString it.1; SInt it.2]) its.
Proof.
  revert s. induction its as [|[k v] its IH]; intros s; simpl.
  - by rewrite app_nil_r.
  - rewrite IH. by rewrite <- !app_assoc.
Qed.

Lemma deserialize_entries_flat (its : list (string * Z)) (m : gmap string Z)
    (rest : Serializer) :
  NoDup its.*1 →
  (∀ k, k ∈ its.*1 → m !! k = None) →
  deserialize_entries (length its) m
    (flat_map (λ it, [SString it.1; SInt it.2]) its ++ rest)
  = Some (list_to_map its ∪ m, rest).
Proof.
  revert m. induction its as [|[k v] its IH]; intros m Hnd Hfree; simpl.
  - by rewrite (left_id_L ∅ (∪)).
  - apply NoDup_cons in Hnd as [Hk Hnd].
    assert (m !! k = None) as Hmk by (apply Hfree; simpl; left).
    unfold umap_insert at 1. rewrite Hmk. rewrite IH; [|done|].
    + f_equal. f_equal. rewrite <- insert_union_r, insert_union_l; [done|].
      by apply not_elem_of_list_to_map_1.
    + intros k' Hk'. rewrite lookup_insert_ne by (by intros ->).
      apply Hfree. simpl. by right.
Qed.

(** C8. Reading back, into a newly constructed table, what [serialize]
    wrote restores the key to offset entries and the four recorded type and
    length members, whatever order the unordered map enumerates its
    entries in and whatever follows in the stream. *)
Theorem deserialize_serialize (self : PivotMapTable)
    (its : list (string * Z)) (rest : Serializer) :
  its ≡ₚ map_to_list (m_map_values self) →
  ∃ restored,
    deserialize PivotMapTable_new (serialize_in_order its self [] ++ rest)
    = Some (restored, rest)
    ∧ m_map_values restored = m_map_values self
    ∧ m_pivotcol_type restored = m_pivotcol_type self
    ∧ m_pivotcol_len restored = m_pivotcol_len self
    ∧ m_value_type restored = m_value_type self
    ∧ m_value_len restored = m_value_len self.
Proof.
  intros Hperm.
  assert (NoDup its.*1) as Hnd.
  { rewrite Hperm. apply NoDup_fst_map_to_list. }
  assert (length its = size (m_map_values self)) as Hlen.
  { rewrite Hperm. by rewrite length_map_to_list. }
  unfold serialize_in_order, deserialize. rewrite serialize_entries_app.
  simpl. rewrite Nat2Z.id, <- Hlen.
  rewrite deserialize_entries_flat; [|done|by intros; apply lookup_empty].
  simpl. eexists. split; [reflexivity|]. simpl. split_and!; try done.
  rewrite (right_id_L ∅ (∪)).
  rewrite (list_to_map_proper its (map_to_list (m_map_values self))); try done.
  apply list_to_map_to_list.
Qed.

(** ** Building the map at Start *)

Section Start.
Context `{host : vdb_udf}.

Lemma add_rows_pivotcol_type (rows : list RowDesc) (tblMap : PivotMapTable)
    (coloffset : int_t) :
  m_pivotcol_type (add_rows tblMap rows coloffset) = m_pivotcol_type tblMap
  ∧ m_pivotcol_len (add_rows tblMap rows coloffset) = m_pivotcol_len tblMap.
Proof.
  revert tblMap coloffset.
  induction rows as [|rowp rows IH]; intros tblMap coloffset; simpl; [done|].
  by destruct (IH (add tblMap rowp coloffset) (coloffset + 1)) as [-> ->].
Qed.

(** The map after the loop: an entry present before stays; a new key gets
    the ordinal of the first row that carries it. *)
Lemma add_rows_lookup (rows : list RowDesc) (tblMap : PivotMapTable)
    (coloffset : int_t) (k : string) :
  m_map_values (add_rows tblMap rows coloffset) !! k
  = match m_map_values tblMap !! k with
    | Some w => Some w
    | None =>
        (λ found : nat * string, coloffset + Z.of_nat found.1)
        <$> list_find (λ k', k' = k)
              (map (add_key (m_pivotcol_type tblMap)) rows)
    end.
Proof.
  revert tblMap coloffset.
  induction rows as [|rowp rows IH]; intros tblMap coloffset; simpl.
  - by destruct (m_map_values tblMap !! k).
  - rewrite IH. unfold add at 1 2. simpl. rewrite umap_insert_lookup.
    destruct (m_map_values tblMap !! k) as [w|]; [done|].
    case_decide as Hkey; simpl; [f_equal; lia|].
    destruct (list_find _ _) as [[i k']|]; simpl; [|done].
    f_equal. lia.
Qed.

Lemma StartCmd_unfold (arg : TableArg) (p : PivotParameters) (c0 : Column) :
  validate arg PivotParameters_new true = Ok p →
  qr_schema (sql_open arg (collistquery p)) !! 0%nat = Some c0 →
  StartCmd arg
  = Ok (add_rows
          (setPivotColType PivotMapTable_new (col_type c0) (col_length c0))
          (qr_rows (sql_open arg (collistquery p))) 0).
Proof.
  intros Hv Hs. unfold StartCmd. rewrite Hv. simpl. by rewrite Hs.
Qed.

Lemma StartCmd_lookup (arg : TableArg) (p : PivotParameters) (c0 : Column)
    (k : string) :
  validate arg PivotParameters_new true = Ok p →
  qr_schema (sql_open arg (collistquery p)) !! 0%nat = Some c0 →
  ∃ tblMap,
    StartCmd arg = Ok tblMap
    ∧ m_pivotcol_type tblMap = col_type c0
    ∧ m_pivotcol_len tblMap = col_length c0
    ∧ m_map_values tblMap !! k
      = (λ found : nat * string, Z.of_nat found.1)
        <$> list_find (λ k', k' = k)
              (map (add_key (col_type c0))
                 (qr_rows (sql_open arg (collistquery p)))).
Proof.
  intros Hv Hs. eexists. split; [by eapply StartCmd_unfold|].
  split_and!; [apply add_rows_pivotcol_type..|].
  rewrite add_rows_lookup. simpl. rewrite lookup_empty.
  by destruct (list_find _ _).
Qed.

(** Every offset of a map built at Start is the position of a catalog
    row. *)
Lemma StartCmd_offsets (arg : TableArg) (tblMap : PivotMapTable)
    (p : PivotParameters) (k : string) (o : int_t) :
  validate arg PivotParameters_new true = Ok p →
  StartCmd arg = Ok tblMap →
  m_map_values tblMap !! k = Some o →
  0 <= o < Z.of_nat (length (qr_rows (sql_open arg (collistquery p)))).
Proof.
  intros Hv Hstart Hk.
  destruct (qr_schema (sql_open arg (collistquery p)) !! 0%nat)
    as [c0|] eqn:Hs.
  2: { unfold StartCmd in Hstart. rewrite Hv in Hstart. simpl in Hstart.
       by rewrite Hs in Hstart. }
  destruct (StartCmd_lookup arg p c0 k Hv Hs) as (t & Ht & _ & _ & Hl).
  rewrite Hstart in Ht. injection Ht as <-. rewrite Hl in Hk.
  destruct (list_find _ _) as [[i k']|] eqn:Hfind; [|done].
  simpl in Hk. injection Hk as <-.
  apply list_find_Some in Hfind as (Hi & _ & _).
  apply lookup_lt_Some in Hi. rewrite length_map in Hi. lia.
Qed.

(** C4, as the code has it.  [unordered_map::insert] leaves an existing
    entry alone, so when several catalog rows encode to one key the map
    holds the ordinal of the first of them and that of no later one; when
    the keys are all distinct each key holds the 0-based position of its
    row. *)
Theorem StartCmd_first_row_wins (arg : TableArg) (p : PivotParameters)
    (c0 : Column) :
  validate arg PivotParameters_new true = Ok p →
  qr_schema (sql_open arg (collistquery p)) !! 0%nat = Some c0 →
  let keys := map (add_key (col_type c0))
                (qr_rows (sql_open arg (collistquery p))) in
  ∃ tblMap,
    StartCmd arg = Ok tblMap
    ∧ (∀ (i : nat) (k : string),
         keys !! i = Some k →
         (∀ j : nat, (j < i)%nat → keys !! j ≠ Some k) →
         m_map_values tblMap !! k = Some (Z.of_nat i))
    ∧ (∀ (i j : nat) (k : string),
         (i < j)%nat → keys !! i = Some k → keys !! j = Some k →
         m_map_values tblMap !! k ≠ Some (Z.of_nat j))
    ∧ (NoDup keys →
       ∀ (i : nat) (k : string),
         keys !! i = Some k → m_map_values tblMap !! k = Some (Z.of_nat i))
    ∧ (∀ k : string, k ∉ keys → m_map_values tblMap !! k = None).
Proof.
  intros Hv Hs keys.
  assert (∀ (i : nat) (k : string) (t : PivotMapTable),
            StartCmd arg = Ok t →
            keys !! i = Some k →
            (∀ j : nat, (j < i)%nat → keys !! j ≠ Some k) →
            m_map_values t !! k = Some (Z.of_nat i)) as Hfirst.
  { intros i k t Ht Hi Hmin.
    destruct (StartCmd_lookup arg p c0 k Hv Hs) as (t' & Ht' & _ & _ & Hl).
    rewrite Ht in Ht'. injection Ht' as <-. rewrite Hl. fold keys.
    assert (list_find (λ k', k' = k) keys = Some (i, k)) as ->; [|done].
    apply list_find_Some. split_and!; [done..|].
    intros j y Hj Hlt ->. by eapply Hmin. }
  destruct (StartCmd_lookup arg p c0 "" Hv Hs) as (tblMap & Ht & _).
  exists tblMap. split_and!; [done|..].
  - intros i k. by apply Hfirst.
  - intros i j k Hij Hi Hj Hlook.
    destruct (StartCmd_lookup arg p c0 k Hv Hs) as (t' & Ht' & _ & _ & Hl).
    rewrite Ht in Ht'. injection Ht' as <-. rewrite Hl in Hlook. fold keys in Hlook.
    destruct (list_find _ keys) as [[i' k']|] eqn:Hfind; [|done].
    simpl in Hlook. injection Hlook as Heq. apply Nat2Z.inj in Heq as ->.
    apply list_find_Some in Hfind as (_ & _ & Hmin).
    by eapply (Hmin i k).
  - intros Hnd i k Hi. apply Hfirst; [done..|].
    intros j Hlt Hj. pose proof (NoDup_lookup _ _ _ _ Hnd Hi Hj). lia.
  - intros k Hnotin.
    destruct (StartCmd_lookup arg p c0 k Hv Hs) as (t' & Ht' & _ & _ & Hl).
    rewrite Ht in Ht'. injection Ht' as <-. rewrite Hl. fold keys.
    destruct (list_find _ keys) as [[i' k']|] eqn:Hfind; [|done].
    apply list_find_Some in Hfind as (Hi & -> & _).
    by apply list_elem_of_lookup_2 in Hi.
Qed.

(** C5, as the code has it.  With no catalog row the loop body never runs:
    [StartCmd] raises nothing and hands an empty map, with the type and
    length of catalog column 0 recorded, to [arg.setSessionData]. *)
Theorem StartCmd_empty_catalog (arg : TableArg) (p : PivotParameters)
    (c0 : Column) :
  validate arg PivotParameters_new true = Ok p →
  qr_schema (sql_open arg (collistquery p)) !! 0%nat = Some c0 →
  qr_rows (sql_open arg (collistquery p)) = [] →
  ∃ tblMap,
    StartCmd arg = Ok tblMap
    ∧ m_map_values tblMap = ∅
    ∧ getMapSize tblMap = 0%nat
    ∧ m_pivotcol_type tblMap = col_type c0
    ∧ m_pivotcol_len tblMap = col_length c0.
Proof.
  intros Hv Hs Hrows. eexists. split; [by eapply StartCmd_unfold|].
  rewrite Hrows. simpl. by split_and!.
Qed.

End Start.

(** ** The row processor *)

Lemma copy_grp_cols_spec (cols : list ColumnIndex) (rd_in out_rd : RowDesc)
    (outIdx : ColumnIndex) :
  (copy_grp_cols cols rd_in out_rd outIdx).2 = outIdx + Z.of_nat (length cols)
  ∧ ∀ j,
      (copy_grp_cols cols rd_in out_rd outIdx).1 j
      = if decide (outIdx <= j < outIdx + Z.of_nat (length cols))
        then rd_in (nth (Z.to_nat (j - outIdx)) cols 0)
        else out_rd j.
Proof.
  revert out_rd outIdx.
  induction cols as [|inColIdx cols IH]; intros out_rd outIdx.
  - simpl. split; [lia|]. intros j. case_decide; [lia|done].
  - cbn [copy_grp_cols length].
    destruct (IH (copyColumnValue rd_in inColIdx out_rd outIdx) (outIdx + 1))
      as [-> Hj].
    split; [lia|]. intros j. rewrite Hj. unfold copyColumnValue.
    case_decide as H1; case_decide as H2; try lia.
    + replace (Z.to_nat (j - outIdx)) with (S (Z.to_nat (j - (outIdx + 1))))
        by lia.
      done.
    + assert (j = outIdx) as -> by lia.
      rewrite fn_lookup_insert. by rewrite Z.sub_diag.
    + rewrite fn_lookup_insert_ne by lia. done.
Qed.

Lemma null_slots_spec (n : nat) (out_rd : RowDesc) (outIdx : ColumnIndex) :
  ∀ j,
    (null_slots n out_rd outIdx).1 j
    = if decide (outIdx <= j < outIdx + Z.of_nat n) then None else out_rd j.
Proof.
  revert out_rd outIdx. induction n as [|n IH]; intros out_rd outIdx j.
  - simpl. case_decide; [lia|done].
  - cbn [null_slots]. rewrite IH. unfold setNull.
    case_decide as H1; case_decide as H2; try lia; try done.
    + assert (j = outIdx) as -> by lia. by rewrite fn_lookup_insert.
    + rewrite fn_lookup_insert_ne by lia. done.
Qed.

(** What the first row leaves in the output row before its own values are
    copied: the grouping columns in front, then a null in each of the
    (map size) x (value columns) pivot positions, the rest as allocated. *)
Lemma first_time_init_spec (self : PivotClass) (rd_in : RowDesc)
    (j : ColumnIndex) :
  let p := m_pivotParameters self in
  let G := Z.of_nat (length (grpCols p)) in
  let KV := Z.of_nat (getMapSize (m_map self)) * numpivotValCols p in
  first_time_init self rd_in j
  = if decide (G <= j < G + KV) then None
    else if decide (0 <= j < G) then rd_in (nth (Z.to_nat j) (grpCols p) 0)
    else m_out_rd self j.
Proof.
  intros p G KV. unfold first_time_init. fold p.
  destruct (copy_grp_cols (grpCols p) rd_in (m_out_rd self) 0)
    as [out_rd outIdx] eqn:Hc.
  destruct (copy_grp_cols_spec (grpCols p) rd_in (m_out_rd self) 0)
    as [Hidx Hj].
  rewrite Hc in Hidx, Hj. simpl in Hidx, Hj. subst outIdx.
  rewrite null_slots_spec, Hj. fold G KV. rewrite Z.sub_0_r.
  repeat case_decide; try lia; done.
Qed.

Lemma copy_val_cols_Ok (n : nat) (c : int_t) (p : PivotParameters)
    (numGrpCols outIdx myoffset : int_t) (rd_in out_rd out_rd' : RowDesc) :
  0 <= c →
  copy_val_cols n c p numGrpCols outIdx myoffset rd_in out_rd = Ok out_rd' →
  let base := outIdx + myoffset * numpivotValCols p in
  ∀ j,
    out_rd' j
    = if decide (base + c <= j < base + c + Z.of_nat n)
      then rd_in (nth (Z.to_nat (j - base)) (pivotValCols p) 0)
      else out_rd j.
Proof.
  intros Hc Hok base. revert c out_rd Hc Hok.
  induction n as [|n IH]; intros c out_rd Hc Hok j.
  - simpl in Hok. injection Hok as <-. case_decide; [lia|done].
  - cbn [copy_val_cols] in Hok. fold base in Hok.
    destruct (base + c <? numGrpCols); [done|].
    rewrite (IH (c + 1) _ ltac:(lia) Hok). unfold copyColumnValue.
    case_decide as H1; case_decide as H2; try lia; try done.
    + assert (j = base + c) as -> by lia. rewrite fn_lookup_insert.
      by replace (base + c - base) with c by lia.
    + rewrite fn_lookup_insert_ne by lia. done.
Qed.

Lemma copy_val_cols_succeeds (n : nat) (c : int_t) (p : PivotParameters)
    (numGrpCols myoffset : int_t) (rd_in out_rd : RowDesc) :
  0 <= c → 0 <= myoffset * numpivotValCols p →
  ∃ out_rd',
    copy_val_cols n c p numGrpCols numGrpCols myoffset rd_in out_rd
    = Ok out_rd'.
Proof.
  intros Hc Hbase. revert c out_rd Hc.
  induction n as [|n IH]; intros c out_rd Hc; simpl; [by eexists|].
  destruct (Z.ltb_spec (numGrpCols + myoffset * numpivotValCols p + c)
              numGrpCols); [lia|].
  apply IH. lia.
Qed.

Section Processor.
Context `{host : vdb_udf}.

(** A successful call, read backwards. *)
Lemma process_Ok_inv (self self' : PivotClass) (rd_in : RowDesc) :
  process self rd_in = Ok self' →
  let p := m_pivotParameters self in
  let key := process_key (pivotColType p) rd_in (pivotColIdx p) in
  let base := Z.of_nat (length (grpCols p))
              + findcolumnoffset (m_map self) key * numpivotValCols p in
  isNull rd_in (pivotColIdx p) = false
  ∧ 0 <= findcolumnoffset (m_map self) key
  ∧ m_map self' = m_map self
  ∧ m_pivotParameters self' = p
  ∧ m_first_time self' = false
  ∧ ∀ j,
      m_out_rd self' j
      = if decide (base <= j < base + numpivotValCols p)
        then rd_in (nth (Z.to_nat (j - base)) (pivotValCols p) 0)
        else after_first_time self rd_in j.
Proof.
  intros Hp p key base. unfold process in Hp. fold p key in Hp.
  destruct (isNull rd_in (pivotColIdx p)); [done|].
  destruct (Z.ltb_spec (findcolumnoffset (m_map self) key) 0); [done|].
  unfold rbind in Hp.
  destruct (copy_val_cols _ _ _ _ _ _ _ _) as [out'|e] eqn:Hc; [|done].
  injection Hp as <-. simpl. split_and!; try done.
  intros j. rewrite (copy_val_cols_Ok _ 0 _ _ _ _ _ _ _ ltac:(lia) Hc).
  fold base. repeat case_decide; try lia; done.
Qed.

(** A non-null pivot value whose key has a non-negative offset in the map
    makes the call succeed. *)
Lemma process_succeeds (self : PivotClass) (rd_in : RowDesc) (o : int_t) :
  let p := m_pivotParameters self in
  let key := process_key (pivotColType p) rd_in (pivotColIdx p) in
  isNull rd_in (pivotColIdx p) = false →
  m_map_values (m_map self) !! key = Some o →
  0 <= o →
  findcolumnoffset (m_map self) key = o
  ∧ ∃ self', process self rd_in = Ok self'.
Proof.
  intros p key Hnull Hkey Ho.
  assert (findcolumnoffset (m_map self) key = o) as Hoff
    by (unfold findcolumnoffset; by rewrite Hkey).
  split; [done|]. unfold process. fold p key. rewrite Hnull, Hoff.
  destruct (Z.ltb_spec o 0); [lia|].
  destruct (Z.le_gt_cases (numpivotValCols p) 0) as [Hv|Hv].
  - replace (Z.to_nat (numpivotValCols p)) with 0%nat by lia.
    simpl. by eexists.
  - destruct (copy_val_cols_succeeds (Z.to_nat (numpivotValCols p)) 0 p
                (Z.of_nat (length (grpCols p))) o rd_in
                (after_first_time self rd_in)) as [out' Hout]; [lia|nia|].
    rewrite Hout. simpl. by eexists.
Qed.

End Processor.

Section RowProcessing.
Context `{host : vdb_udf}.


(** C2. With the offsets of the map non-negative, as [StartCmd] makes
    them: [process] raises NullPivotKey exactly when the pivot column of the
    row is null; for a non-null one it raises PivotKeyNotFound exactly when
    the key of the row is not in the map; and when the key is there it
    raises nothing and the value columns of the row are in the output
    row. *)
Theorem process_errors (self : PivotClass) (rd_in : RowDesc) :
  let p := m_pivotParameters self in
  let G := Z.of_nat (length (grpCols p)) in
  let V := numpivotValCols p in
  let key := process_key (pivotColType p) rd_in (pivotColIdx p) in
  (∀ k o, m_map_values (m_map self) !! k = Some o → 0 <= o) →
  (process self rd_in = Err NullPivotKey
   ↔ isNull rd_in (pivotColIdx p) = true)
  ∧ (isNull rd_in (pivotColIdx p) = false →
     ((∃ k, process self rd_in = Err (PivotKeyNotFound k))
      ↔ m_map_values (m_map self) !! key = None)
     ∧ (m_map_values (m_map self) !! key = None →
        process self rd_in = Err (PivotKeyNotFound key))
     ∧ ∀ o, m_map_values (m_map self) !! key = Some o →
         ∃ self',
           process self rd_in = Ok self'
           ∧ ∀ c, 0 <= c < V →
               m_out_rd self' (G + o * V + c)
               = rd_in (nth (Z.to_nat c) (pivotValCols p) 0)).
Proof.
  intros p G V key Hwf.
  assert (isNull rd_in (pivotColIdx p) = false →
          m_map_values (m_map self) !! key = None →
          process self rd_in = Err (PivotKeyNotFound key)) as Hmiss.
  { intros Hnull Hnone. unfold process. fold p key. rewrite Hnull.
    unfold findcolumnoffset. by rewrite Hnone. }
  assert (∀ o, isNull rd_in (pivotColIdx p) = false →
               m_map_values (m_map self) !! key = Some o →
               ∃ self',
                 process self rd_in = Ok self'
                 ∧ ∀ c, 0 <= c < V →
                     m_out_rd self' (G + o * V + c)
                     = rd_in (nth (Z.to_nat c) (pivotValCols p) 0)) as Hhit.
  { intros o Hnull Hkey.
    destruct (process_succeeds self rd_in o Hnull Hkey (Hwf _ _ Hkey))
      as [Hoff [self' Hp]].
    exists self'. split; [done|].
    destruct (process_Ok_inv _ _ _ Hp) as (_ & _ & _ & _ & _ & Hout).
    fold p key in Hoff, Hout. rewrite Hoff in Hout. fold G V in Hout.
    intros c Hc. rewrite Hout. case_decide; [|lia].
    by replace (G + o * V + c - (G + o * V)) with c by lia. }
  split.
  - split.
    + intros Hp. destruct (isNull rd_in (pivotColIdx p)) eqn:Hnull; [done|].
      destruct (m_map_values (m_map self) !! key) as [o|] eqn:Hkey.
      * destruct (Hhit o eq_refl eq_refl) as (self' & Hok & _). congruence.
      * rewrite (Hmiss eq_refl eq_refl) in Hp. done.
    + intros Hnull. unfold process. fold p. by rewrite Hnull.
  - intros Hnull. split_and!.
    + split.
      * intros [k Hp].
        destruct (m_map_values (m_map self) !! key) as [o|] eqn:Hkey; [|done].
        destruct (Hhit o Hnull eq_refl) as (self' & Hok & _). congruence.
      * intros Hnone. exists key. by apply Hmiss.
    + by apply Hmiss.
    + intros o Hkey. by apply Hhit.
Qed.

(** C9, as the code has it.  [flush], which [FinalizeCmd] calls, puts the
    output row in the row store and does nothing else: the row buffer stays
    allocated until [DestroyCmd], and [m_first_time], false after any
    processed row, stays false.  A row the same processor is given after
    that is therefore accumulated on top of the old output row: outside its
    own block nothing is copied and nothing is set to null.  Only the
    processor [CreateCmd] makes has [m_first_time] true. *)
Theorem flush_keeps_accumulator (self self1 : PivotClass) (rd_in : RowDesc)
    (store : RowStore) :
  process self rd_in = Ok self1 →
  m_first_time self1 = false
  ∧ rs_put (FinalizeCmd self1 store) = rs_put store ++ [m_out_rd self1]
  ∧ rs_allocated (FinalizeCmd self1 store) = rs_allocated store
  ∧ rs_allocated (DestroyCmd self1 store) = pred (rs_allocated store)
  ∧ (∀ (rd_next : RowDesc) (self2 : PivotClass),
      process self1 rd_next = Ok self2 →
      let p := m_pivotParameters self1 in
      let key := process_key (pivotColType p) rd_next (pivotColIdx p) in
      let base := Z.of_nat (length (grpCols p))
                  + findcolumnoffset (m_map self1) key * numpivotValCols p in
      m_first_time self2 = false
      ∧ ∀ j, ¬ (base <= j < base + numpivotValCols p) →
          m_out_rd self2 j = m_out_rd self1 j)
  ∧ ∀ (arg : TableArg) (store0 store1 : RowStore) (functor : PivotClass),
      CreateCmd arg store0 = Ok (functor, store1) →
      m_first_time functor = true
      ∧ rs_allocated store1 = S (rs_allocated store0).
Proof.
  intros Hp.
  destruct (process_Ok_inv _ _ _ Hp) as (_ & _ & _ & _ & Hft & _).
  split_and!; try done.
  - intros rd_next self2 Hp2 p key base.
    destruct (process_Ok_inv _ _ _ Hp2) as (_ & _ & _ & _ & Hft2 & Hout).
    split; [done|]. intros j Hj. rewrite Hout. fold p key base.
    case_decide; [lia|]. unfold after_first_time. by rewrite Hft.
  - intros arg store0 store1 functor. unfold CreateCmd.
    destruct (validate arg PivotParameters_new false); simpl; [|done].
    by intros [= <- <-].
Qed.

End RowProcessing.

(** ** last_day *)

Lemma isleap_leap_year (y : Z) : isleap y = true ↔ leap_year y.
Proof.
  unfold isleap, leap_year.
  rewrite andb_true_iff, orb_true_iff, negb_true_iff.
  rewrite !Z.eqb_eq, Z.eqb_neq.
  by rewrite !Z.rem_divide.
Qed.

Lemma leap_yearb_isleap (y : Z) : leap_yearb y = isleap y.
Proof.
  unfold leap_yearb, isleap.
  assert (∀ b, b ≠ 0 → (y mod b =? 0) = (Z.rem y b =? 0)) as Heq.
  { intros b Hb.
    destruct (Z.eqb_spec (y mod b) 0) as [H1|H1],
             (Z.eqb_spec (Z.rem y b) 0) as [H2|H2]; try done.
    - apply Z.mod_divide in H1; [|done]. by apply Z.rem_divide in H1.
    - apply Z.rem_divide in H2; [|done]. by apply Z.mod_divide in H2. }
  by rewrite !Heq.
Qed.

Section LastDay.
Context `{cal : padb_udf}.

(** C10. On a host whose [date_plus_days] moves the day of the month inside
    a month, [last_day] of a non-null date in February returns a non-null
    date of the same year and month, on day 29 when the year is a leap
    year and on day 28 when it is not. *)
Theorem last_day_february (in_date : date_t) :
  plus_days_within_month →
  extract_month_from_date in_date = 2 →
  ∃ retdate,
    last_day (Some in_date) = Some retdate
    ∧ extract_year_from_date retdate = extract_year_from_date in_date
    ∧ extract_month_from_date retdate = 2
    ∧ (leap_year (extract_year_from_date in_date) →
       extract_day_from_date retdate = 29)
    ∧ (¬ leap_year (extract_year_from_date in_date) →
       extract_day_from_date retdate = 28).
Proof.
  intros Hplus Hmon. eexists. split; [reflexivity|].
  unfold calc_lastdayofmonth. rewrite Hmon.
  set (y := extract_year_from_date in_date).
  set (d := extract_day_from_date in_date).
  assert (month_length y 2 = if isleap y then 29 else 28) as Hlen.
  { unfold month_length. simpl. by rewrite leap_yearb_isleap. }
  destruct (isleap y) eqn:Hleap; simpl.
  - destruct (Hplus in_date (29 - d)) as (Hy & Hm & Hd).
    { fold y d. rewrite Hmon, Hlen. lia. }
    fold y d in Hy, Hd. rewrite Hy, Hm, Hd. split_and!; try done; [lia|].
    intros Hnot. apply isleap_leap_year in Hleap. done.
  - destruct (Hplus in_date (28 - d)) as (Hy & Hm & Hd).
    { fold y d. rewrite Hmon, Hlen. lia. }
    fold y d in Hy, Hd. rewrite Hy, Hm, Hd. split_and!; try done; [|lia].
    intros Hl. apply isleap_leap_year in Hl. congruence.
Qed.

End LastDay.

(** The civil calendar meets the contract. *)
Lemma civil_next_iter (n : nat) (d : civil) :
  c_day d + Z.of_nat n <= month_length (c_year d) (c_month d) →
  Nat.iter n civil_next d
  = {| c_year := c_year d; c_month := c_month d;
       c_day := c_day d + Z.of_nat n |}.
Proof.
  induction n as [|n IH]; intros Hle.
  - simpl. destruct d. simpl. f_equal. lia.
  - rewrite Nat.iter_succ, IH by lia. unfold civil_next. simpl.
    destruct (Z.ltb_spec (c_day d + Z.of_nat n)
                (month_length (c_year d) (c_month d))); [|lia].
    f_equal. lia.
Qed.

Lemma civil_prev_iter (n : nat) (d : civil) :
  1 <= c_day d - Z.of_nat n →
  Nat.iter n civil_prev d
  = {| c_year := c_year d; c_month := c_month d;
       c_day := c_day d - Z.of_nat n |}.
Proof.
  induction n as [|n IH]; intros Hle.
  - simpl. destruct d. simpl. f_equal. lia.
  - rewrite Nat.iter_succ, IH by lia. unfold civil_prev. simpl.
    destruct (Z.ltb_spec 1 (c_day d - Z.of_nat n)); [|lia].
    f_equal. lia.
Qed.

Lemma civil_plus_days_within_month : @plus_days_within_month civil_calendar.
Proof.
  intros d k. simpl. intros Hk. unfold civil_plus_days.
  destruct (Z.leb_spec 0 k).
  - rewrite civil_next_iter by lia. simpl. split_and!; try done. lia.
  - rewrite civil_prev_iter by lia. simpl. split_and!; try done. lia.
Qed.

(** * The worked example *)

(** The commands on the example data. *)
Example StartCmd_example :
  @StartCmd example_host (example_arg example_catalog) = Ok example_map.
Proof. by vm_compute. Qed.

Example CreateCmd_example :
  ∃ store,
    CreateCmd (example_arg example_catalog) example_store
    = Ok (example_processor, store)
    ∧ rs_allocated store = 1%nat.
Proof. eexists. split; reflexivity. Qed.

Lemma example_map_offsets (k : string) (o : int_t) :
  m_map_values example_map !! k = Some o → 0 <= o.
Proof.
  simpl. rewrite lookup_insert. case_decide; [intros [= <-]; lia|].
  rewrite lookup_insert. case_decide; [intros [= <-]; lia|].
  by rewrite lookup_empty.
Qed.

(** Scenario A: the two rows of the group and the flush. *)
Example scenario_A :
  ∃ self1 self2,
    @process example_host example_processor (example_row "east" "OPEN" 10)
    = Ok self1
    ∧ @process example_host self1 (example_row "east" "CLOSED" 5) = Ok self2
    ∧ match rs_put (FinalizeCmd self2 example_store) with
      | [rd] =>
          rd 0 = Some (DString "east") ∧ rd 1 = Some (DInt 10)
          ∧ rd 2 = Some (DInt 5)
      | _ => False
      end.
Proof. do 2 eexists. split_and!; [reflexivity..|]. by vm_compute. Qed.


Lemma process_errors_witness :
  (@process example_host example_processor (example_row "east" "OPEN" 10)
   = Err NullPivotKey
   ↔ isNull (example_row "east" "OPEN" 10) 1 = true).
Proof.
  exact (proj1 (@process_errors example_host example_processor
                  (example_row "east" "OPEN" 10) example_map_offsets)).
Defined.

Lemma process_key_add_key_witness :
  @process_key example_host 9 (example_row "east" "OPEN" 10) 1
  = @add_key example_host 9
      (row_of [Some (DString "OPEN"); Some (DString "open_amt")]).
Proof.
  apply (@process_key_add_key example_host). reflexivity.
Defined.

(** C4 refuted: of two catalog rows with the key OPEN, the map keeps the
    ordinal 0 of the first, not the ordinal 1 of the second. *)
Lemma later_duplicate_does_not_overwrite :
  ∃ tblMap,
    @StartCmd example_host (example_arg example_dup_catalog) = Ok tblMap
    ∧ map (@add_key example_host 9) (qr_rows example_dup_catalog)
      = ["OPEN"; "OPEN"]
    ∧ m_map_values tblMap !! "OPEN" = Some 0
    ∧ m_map_values tblMap !! "OPEN" ≠ Some 1.
Proof. eexists. split; [reflexivity|]. by vm_compute. Qed.

Lemma StartCmd_first_row_wins_witness :
  ∃ tblMap,
    @StartCmd example_host (example_arg example_dup_catalog) = Ok tblMap
    ∧ m_map_values tblMap !! "OPEN" = Some 0.
Proof.
  destruct (@StartCmd_first_row_wins example_host
              (example_arg example_dup_catalog) _ _ eq_refl eq_refl)
    as (tblMap & Hs & Hfirst & _).
  exists tblMap. split; [exact Hs|].
  apply (Hfirst 0%nat "OPEN"); [reflexivity|]. intros j Hj. lia.
Defined.

(** C5 refuted: with no catalog row [StartCmd] returns normally and the
    session object is a table with an empty map. *)
Lemma StartCmd_no_rows_no_error :
  qr_rows example_empty_catalog = []
  ∧ @StartCmd example_host (example_arg example_empty_catalog)
    = Ok {| m_key_col_idx := 0; m_value_type := 0; m_value_len := 0;
            m_pivotcol_type := 9; m_pivotcol_len := 16;
            m_map_values := ∅ |}
  ∧ @StartCmd example_host (example_arg example_empty_catalog)
    ≠ Err SchemaError.
Proof. split_and!; [reflexivity..|]. by vm_compute. Qed.

Lemma StartCmd_empty_catalog_witness :
  ∃ tblMap,
    @StartCmd example_host (example_arg example_empty_catalog) = Ok tblMap
    ∧ m_map_values tblMap = ∅.
Proof.
  destruct (@StartCmd_empty_catalog example_host
              (example_arg example_empty_catalog) _ _ eq_refl eq_refl eq_refl)
    as (tblMap & Hs & Hempty & _).
  exists tblMap. split; [exact Hs | exact Hempty].
Defined.

Lemma example_other_type_not_supported :
  example_other_type ∉ @supported_types example_host.
Proof.
  unfold supported_types, example_other_type. simpl.
  rewrite list_elem_of_In. simpl. lia.
Qed.

(** C6 refuted: for a type tag that is none of the case labels the encoder
    yields the empty key, [add] stores it and [process] finds it; no error
    is raised. *)
Lemma unsupported_type_no_error :
  (example_other_type ∉ @supported_types example_host)
  ∧ @add_key example_host example_other_type
      (example_row "east" "OPEN" 10) = ""
  ∧ @process_key example_host example_other_type
      (example_row "east" "OPEN" 10) 1 = ""
  ∧ m_map_values
      (@add example_host
         (setPivotColType PivotMapTable_new example_other_type 1)
         (example_row "east" "OPEN" 10) 0) !! "" = Some 0
  ∧ ∃ self',
      @process example_host example_other_processor
        (example_row "east" "OPEN" 10) = Ok self'.
Proof.
  split; [apply example_other_type_not_supported|].
  split_and!; [reflexivity..|]. eexists. reflexivity.
Qed.

Lemma unsupported_type_gives_empty_key_witness :
  @process_key example_host example_other_type
    (example_row "east" "OPEN" 10) 1 = "".
Proof.
  exact (proj1 (proj2 (@unsupported_type_gives_empty_key example_host
                         example_other_type
                         example_other_type_not_supported)) _ _).
Defined.

Lemma deserialize_serialize_witness :
  ∃ restored,
    deserialize PivotMapTable_new (serialize example_map [])
    = Some (restored, [])
    ∧ m_map_values restored = m_map_values example_map.
Proof.
  destruct (deserialize_serialize example_map
              (map_to_list (m_map_values example_map)) [])
    as (restored & Hd & Hmap & _); [reflexivity|].
  exists restored. split; [|exact Hmap].
  unfold serialize. rewrite <- Hd. by rewrite app_nil_r.
Defined.

(** C9 refuted: after the row of the group east has been processed and
    flushed, the buffer is still allocated and [m_first_time] is false; the
    first row of the group west then leaves east in the grouping column and
    the amount 10 of the earlier group in the OPEN position. *)
Lemma next_group_not_reinitialised :
  ∃ self1 self2,
    @process example_host example_processor (example_row "east" "OPEN" 10)
    = Ok self1
    ∧ m_first_time self1 = false
    ∧ rs_allocated (FinalizeCmd self1 example_store)
      = rs_allocated example_store
    ∧ @process example_host self1 (example_row "west" "CLOSED" 7) = Ok self2
    ∧ example_row "west" "CLOSED" 7 0 = Some (DString "west")
    ∧ m_out_rd self2 0 = Some (DString "east")
    ∧ m_out_rd self2 1 = Some (DInt 10)
    ∧ m_out_rd self2 2 = Some (DInt 7).
Proof. do 2 eexists. split_and!; reflexivity. Qed.

Lemma flush_keeps_accumulator_witness :
  ∃ self1,
    @process example_host example_processor (example_row "east" "OPEN" 10)
    = Ok self1
    ∧ m_first_time self1 = false
    ∧ rs_put (FinalizeCmd self1 example_store) = [m_out_rd self1].
Proof.
  eexists. split; [reflexivity|].
  destruct (@flush_keeps_accumulator example_host example_processor _
              (example_row "east" "OPEN" 10) example_store eq_refl)
    as (Hft & Hput & _).
  split; [exact Hft | exact Hput].
Defined.

Lemma last_day_february_witness :
  ∃ retdate,
    @last_day civil_calendar (Some example_date) = Some retdate
    ∧ c_day retdate = 29.
Proof.
  destruct (@last_day_february civil_calendar example_date
              civil_plus_days_within_month eq_refl)
    as (retdate & Hl & _ & _ & Hleap & _).
  exists retdate. split; [exact Hl|].
  apply Hleap. apply isleap_leap_year. reflexivity.
Defined.

(** * Further properties *)

(** ** validate *)

(** [validate] succeeds exactly when pivotcol is a single column reference,
    groupcol and column_list are present and pivotval is present and not a
    constant; the parameters it returns are read off the four values.  The
    pivot column type is looked up only when [start_cmd] is false; then
    also the descriptor of each value column is stored in the slot of its
    position in [pivotValColDescs], the slots behind them being kept.  In
    either case the size of [pivotValColDescs] stays what it was. *)
Theorem validate_Ok_iff (arg : TableArg) (p0 p : PivotParameters)
    (start_cmd : bool) :
  validate arg p0 start_cmd = Ok p
  ↔ ∃ npvPivotCol npvGrpCol npvColQuery npvPivotVal,
      getNamedParameterValue arg NPV_PIVOTCOL = Some npvPivotCol
      ∧ kindOfParameter npvPivotCol = npColRef
      ∧ getNamedParameterValue arg NPV_GROUPCOL = Some npvGrpCol
      ∧ getNamedParameterValue arg NPV_COLQRY = Some npvColQuery
      ∧ getNamedParameterValue arg NPV_PIVOTVAL = Some npvPivotVal
      ∧ kindOfParameter npvPivotVal ≠ npConst
      ∧ p = {| grpCols := fillColumnIndexVector npvGrpCol;
               pivotColIdx := getColRef npvPivotCol;
               pivotColType :=
                 if start_cmd then pivotColType p0
                 else col_type (getInputColumn arg (getColRef npvPivotCol));
               pivotValCols := fillColumnIndexVector npvPivotVal;
               numpivotValCols :=
                 Z.of_nat (length (fillColumnIndexVector npvPivotVal));
               collistquery := npv_getValueAsString npvColQuery;
               pivotValColDescs :=
                 if start_cmd then pivotValColDescs p0
                 else
                   map (getInputColumn arg)
                     (fillColumnIndexVector npvPivotVal)
                   ++ drop (length (fillColumnIndexVector npvPivotVal))
                        (pivotValColDescs p0);
               pivotValColDescs_size := pivotValColDescs_size p0 |}.
Proof.
  unfold validate.
  destruct (getNamedParameterValue arg NPV_PIVOTCOL) as [pc|];
    [destruct (kindOfParameter pc) eqn:Hpc|]; simpl;
    try (split; [done | intros (?&?&?&?&?&?&?); congruence]).
  destruct (getNamedParameterValue arg NPV_GROUPCOL) as [gc|]; simpl;
    try (split; [done | intros (?&?&?&?&?&?&?&?); congruence]).
  destruct (getNamedParameterValue arg NPV_COLQRY) as [qc|]; simpl;
    try (split; [done | intros (?&?&?&?&?&?&?&?&?); congruence]).
  destruct (getNamedParameterValue arg NPV_PIVOTVAL) as [pv|];
    [destruct (kindOfParameter pv) eqn:Hpv|]; simpl;
    try (split; [done | intros (?&?&?&?&?&?&?&?&?&?&?); congruence]).
  - split.
    + intros [= <-]. exists pc, gc, qc, pv. by rewrite Hpv.
    + intros (?&?&?&?&[= <-]&_&[= <-]&[= <-]&[= <-]&_&->). done.
  - split.
    + intros [= <-]. exists pc, gc, qc, pv. by rewrite Hpv.
    + intros (?&?&?&?&[= <-]&_&[= <-]&[= <-]&[= <-]&_&->). done.
Qed.

(** [validate] fails only with a [ParameterError], and the name it carries
    is that of the first check that fails, in the order pivotcol, groupcol,
    column_list, pivotval; a missing pivotval is reported under the name
    column_list. *)
Theorem validate_Err_iff (arg : TableArg) (p0 : PivotParameters)
    (start_cmd : bool) (e : error) :
  let pivotcol_ok :=
    ∃ v, getNamedParameterValue arg NPV_PIVOTCOL = Some v
         ∧ kindOfParameter v = npColRef in
  let groupcol_ok := is_Some (getNamedParameterValue arg NPV_GROUPCOL) in
  let colqry_ok := is_Some (getNamedParameterValue arg NPV_COLQRY) in
  validate arg p0 start_cmd = Err e
  ↔ (¬ pivotcol_ok ∧ e = ParameterError NPV_PIVOTCOL)
    ∨ (pivotcol_ok ∧ ¬ groupcol_ok ∧ e = ParameterError NPV_GROUPCOL)
    ∨ (pivotcol_ok ∧ groupcol_ok ∧ ¬ colqry_ok
       ∧ e = ParameterError NPV_COLQRY)
    ∨ (pivotcol_ok ∧ groupcol_ok ∧ colqry_ok
       ∧ getNamedParameterValue arg NPV_PIVOTVAL = None
       ∧ e = ParameterError NPV_COLQRY)
    ∨ (pivotcol_ok ∧ groupcol_ok ∧ colqry_ok
       ∧ (∃ v, getNamedParameterValue arg NPV_PIVOTVAL = Some v
               ∧ kindOfParameter v = npConst)
       ∧ e = ParameterError NPV_PIVOTVAL).
Proof.
  intros pivotcol_ok groupcol_ok colqry_ok.
  unfold validate, pivotcol_ok, groupcol_ok, colqry_ok.
  destruct (getNamedParameterValue arg NPV_PIVOTCOL) as [pc|];
    [destruct (kindOfParameter pc) eqn:Hpc|]; simpl.
  2-4: split;
    [intros [= <-]; left; split; [|done]; intros (v & [= <-] & Hk);
       congruence
    |intros [[_ ->]|[H|[H|[H|H]]]]; [done|..];
       destruct H as [(v & Hv & Hk) _]; congruence].
  assert (∃ v, Some pc = Some v ∧ kindOfParameter v = npColRef) as Hpcok
    by (by exists pc).
  destruct (getNamedParameterValue arg NPV_GROUPCOL) as [gc|]; simpl.
  2: { split.
       - intros [= <-]. right; left. split_and!; [done| |done].
         by intros [? ?].
       - intros [[Hn _]|[(_ & _ & ->)|[H|[H|H]]]]; [done|done|..];
           destruct H as (_ & [? ?] & _); done. }
  destruct (getNamedParameterValue arg NPV_COLQRY) as [qc|]; simpl.
  2: { split.
       - intros [= <-]. right; right; left. split_and!; [done|by eexists| |done].
         by intros [? ?].
       - intros [[Hn _]|[(_ & Hn & _)|[(_ & _ & _ & ->)|[H|H]]]];
           [done|by destruct Hn; eexists|done|..];
           destruct H as (_ & _ & [? ?] & _); done. }
  destruct (getNamedParameterValue arg NPV_PIVOTVAL) as [pv|];
    [destruct (kindOfParameter pv) eqn:Hpv|]; simpl.
  - split; [done|].
    intros [[Hn _]|[(_ & Hn & _)|[(_ & _ & Hn & _)|[H|H]]]];
      [done|by destruct Hn; eexists|by destruct Hn; eexists|..].
    + by destruct H as (_ & _ & _ & ? & _).
    + destruct H as (_ & _ & _ & (v & [= <-] & Hk) & _). congruence.
  - split; [done|].
    intros [[Hn _]|[(_ & Hn & _)|[(_ & _ & Hn & _)|[H|H]]]];
      [done|by destruct Hn; eexists|by destruct Hn; eexists|..].
    + by destruct H as (_ & _ & _ & ? & _).
    + destruct H as (_ & _ & _ & (v & [= <-] & Hk) & _). congruence.
  - split.
    + intros [= <-]. do 4 right. split_and!; [done|by eexists..| |done].
      by exists pv.
    + intros [[Hn _]|[(_ & Hn & _)|[(_ & _ & Hn & _)|[H|H]]]];
        [done|by destruct Hn; eexists|by destruct Hn; eexists|..].
      * by destruct H as (_ & _ & _ & ? & _).
      * by destruct H as (_ & _ & _ & _ & ->).
  - split.
    + intros [= <-]. do 3 right; left. split_and!; by try eexists.
    + intros [[Hn _]|[(_ & Hn & _)|[(_ & _ & Hn & _)|[H|H]]]];
        [done|by destruct Hn; eexists|by destruct Hn; eexists|..].
      * by destruct H as (_ & _ & _ & _ & ->).
      * by destruct H as (_ & _ & _ & (v & ? & _) & _).
Qed.

(** ** The map built at Start, continued *)

Lemma size_list_to_set_le (l : list string) :
  (size (list_to_set l : gset string) ≤ length l)%nat.
Proof.
  induction l as [|x l IH].
  - change (size (∅ : gset string) ≤ 0)%nat. by rewrite size_empty.
  - change (size ({[x]} ∪ list_to_set l : gset string) ≤ S (length l))%nat.
    rewrite size_union_alt, size_singleton.
    assert (size ((list_to_set l : gset string) ∖ {[x]})
            ≤ size (list_to_set l : gset string))%nat
      by (by apply subseteq_size, subseteq_difference_l).
    lia.
Qed.

Lemma list_find_eq_is_Some (k : string) (keys : list string) :
  is_Some (list_find (λ k', k' = k) keys) ↔ k ∈ keys.
Proof.
  split.
  - intros [[i k'] Hfind]. apply list_find_Some in Hfind as (Hi & -> & _).
    by eapply list_elem_of_lookup_2.
  - intros Hin. by eapply list_find_elem_of.
Qed.

Section StartMap.
Context `{host : vdb_udf}.

(** The keys of the map [StartCmd] builds are exactly the keys of the
    catalog rows, so the map has as many entries as there are distinct
    catalog keys: never more than rows, and as many as rows when no two rows
    share a key. *)
Theorem StartCmd_keys (arg : TableArg) (p : PivotParameters) (c0 : Column) :
  validate arg PivotParameters_new true = Ok p →
  qr_schema (sql_open arg (collistquery p)) !! 0%nat = Some c0 →
  let rows := qr_rows (sql_open arg (collistquery p)) in
  let keys := map (add_key (col_type c0)) rows in
  ∃ tblMap,
    StartCmd arg = Ok tblMap
    ∧ (∀ k, is_Some (m_map_values tblMap !! k) ↔ k ∈ keys)
    ∧ getMapSize tblMap = size (list_to_set keys : gset string)
    ∧ (getMapSize tblMap ≤ length rows)%nat
    ∧ (NoDup keys → getMapSize tblMap = length rows).
Proof.
  intros Hv Hs rows keys.
  destruct (StartCmd_lookup arg p c0 "" Hv Hs) as (tblMap & Ht & _).
  exists tblMap. split; [done|].
  assert (∀ k, is_Some (m_map_values tblMap !! k) ↔ k ∈ keys) as Hdom.
  { intros k.
    destruct (StartCmd_lookup arg p c0 k Hv Hs) as (t' & Ht' & _ & _ & Hl).
    rewrite Ht in Ht'. injection Ht' as <-. rewrite Hl. fold rows keys.
    rewrite <- list_find_eq_is_Some. by rewrite fmap_is_Some. }
  assert (dom (m_map_values tblMap) = (list_to_set keys : gset string))
    as Hset.
  { apply set_eq. intros k. rewrite elem_of_dom, elem_of_list_to_set.
    apply Hdom. }
  assert (getMapSize tblMap = size (list_to_set keys : gset string)) as Hsize.
  { unfold getMapSize. by rewrite <- size_dom, Hset. }
  split_and!; [done|done|..].
  - rewrite Hsize. pose proof (size_list_to_set_le keys) as Hle.
    unfold keys in Hle at 2. by rewrite length_map in Hle.
  - intros Hnd. rewrite Hsize, size_list_to_set by done.
    unfold keys. by rewrite length_map.
Qed.

(** No two keys of the map built at Start share an offset. *)
Theorem StartCmd_offsets_distinct (arg : TableArg) (tblMap : PivotMapTable)
    (k1 k2 : string) (o : int_t) :
  StartCmd arg = Ok tblMap →
  m_map_values tblMap !! k1 = Some o →
  m_map_values tblMap !! k2 = Some o →
  k1 = k2.
Proof.
  intros Hstart H1 H2.
  destruct (validate arg PivotParameters_new true) as [p|e] eqn:Hv.
  2: { unfold StartCmd in Hstart. by rewrite Hv in Hstart. }
  destruct (qr_schema (sql_open arg (collistquery p)) !! 0%nat)
    as [c0|] eqn:Hs.
  2: { unfold StartCmd in Hstart. rewrite Hv in Hstart. simpl in Hstart.
       by rewrite Hs in Hstart. }
  destruct (StartCmd_lookup arg p c0 k1 Hv Hs) as (t1 & Ht1 & _ & _ & Hl1).
  destruct (StartCmd_lookup arg p c0 k2 Hv Hs) as (t2 & Ht2 & _ & _ & Hl2).
  rewrite Hstart in Ht1, Ht2. injection Ht1 as <-. injection Ht2 as <-.
  rewrite Hl1 in H1. rewrite Hl2 in H2.
  destruct (list_find (λ k', k' = k1) _) as [[i1 x1]|] eqn:Hf1; [|done].
  destruct (list_find (λ k', k' = k2) _) as [[i2 x2]|] eqn:Hf2; [|done].
  simpl in H1, H2. injection H1 as <-. injection H2 as Heq.
  apply Nat2Z.inj in Heq as ->.
  apply list_find_Some in Hf1 as (Hi1 & -> & _).
  apply list_find_Some in Hf2 as (Hi2 & -> & _).
  congruence.
Qed.

(** [findcolumnoffset] on the map built at Start: it is -1 exactly for a
    key that no catalog row carries, and for a catalog key it is the
    position of a row that carries this key, so it lies in [0, rows). *)
Theorem StartCmd_findcolumnoffset (arg : TableArg) (p : PivotParameters)
    (tblMap : PivotMapTable) (k : string) :
  validate arg PivotParameters_new true = Ok p →
  StartCmd arg = Ok tblMap →
  let rows := qr_rows (sql_open arg (collistquery p)) in
  let keys := map (add_key (m_pivotcol_type tblMap)) rows in
  (findcolumnoffset tblMap k = -1 ↔ k ∉ keys)
  ∧ (k ∈ keys →
     0 <= findcolumnoffset tblMap k < Z.of_nat (length rows)
     ∧ keys !! Z.to_nat (findcolumnoffset tblMap k) = Some k).
Proof.
  intros Hv Hstart rows keys.
  destruct (qr_schema (sql_open arg (collistquery p)) !! 0%nat)
    as [c0|] eqn:Hs.
  2: { unfold StartCmd in Hstart. rewrite Hv in Hstart. simpl in Hstart.
       by rewrite Hs in Hstart. }
  destruct (StartCmd_lookup arg p c0 k Hv Hs) as (t & Ht & Hty & _ & Hl).
  rewrite Hstart in Ht. injection Ht as <-.
  unfold keys. rewrite Hty. fold rows.
  set (keys' := map (add_key (col_type c0)) rows). fold rows keys' in Hl.
  unfold findcolumnoffset. rewrite Hl.
  destruct (list_find (λ k', k' = k) keys') as [[i x]|] eqn:Hfind; simpl.
  - apply list_find_Some in Hfind as (Hi & -> & _).
    assert (k ∈ keys') as Hin by (by eapply list_elem_of_lookup_2).
    split; [split; [lia|done]|]. intros _.
    rewrite Nat2Z.id. split; [|done].
    apply lookup_lt_Some in Hi. unfold keys' in Hi.
    rewrite length_map in Hi. lia.
  - assert (k ∉ keys') as Hnot.
    { intros Hin. apply list_find_eq_is_Some in Hin as [? Hin].
      congruence. }
    split; [done|]. intros Hin. done.
Qed.

End StartMap.

(** ** Deserializing into a table that is not empty *)

Lemma umap_insert_union (k : string) (v : int_t) (m m' : gmap string Z) :
  m' !! k = None →
  umap_insert k v m ∪ m' = m ∪ <[k := v]> m'.
Proof.
  intros Hk. apply map_eq. intros i.
  rewrite !lookup_union, umap_insert_lookup, lookup_insert.
  destruct (m !! i) as [w|] eqn:Hi; simpl.
  - destruct (decide (k = i)); by destruct (m' !! i).
  - destruct (decide (k = i)) as [->|Hne]; simpl.
    + by rewrite Hk.
    + by destruct (m' !! i).
Qed.

Lemma deserialize_entries_merge (its : list (string * Z)) (m : gmap string Z)
    (rest : Serializer) :
  NoDup its.*1 →
  deserialize_entries (length its) m
    (flat_map (λ it, [SString it.1; SInt it.2]) its ++ rest)
  = Some (m ∪ list_to_map its, rest).
Proof.
  revert m. induction its as [|[k v] its IH]; intros m Hnd; simpl.
  - by rewrite (right_id_L ∅ (∪)).
  - apply NoDup_cons in Hnd as [Hk Hnd]. rewrite IH by done.
    f_equal. f_equal. apply umap_insert_union.
    by apply not_elem_of_list_to_map_1.
Qed.

(** [deserialize] into any table: the five header members replace those of
    the table, [m_key_col_idx] stays, and the entries read are added to the
    entries the table has, an entry already there keeping its offset. *)
Theorem deserialize_merges (target src : PivotMapTable)
    (its : list (string * Z)) (rest : Serializer) :
  its ≡ₚ map_to_list (m_map_values src) →
  ∃ restored,
    deserialize target (serialize_in_order its src [] ++ rest)
    = Some (restored, rest)
    ∧ m_map_values restored = m_map_values target ∪ m_map_values src
    ∧ (∀ k o, m_map_values target !! k = Some o →
         m_map_values restored !! k = Some o)
    ∧ m_key_col_idx restored = m_key_col_idx target
    ∧ m_pivotcol_type restored = m_pivotcol_type src
    ∧ m_pivotcol_len restored = m_pivotcol_len src
    ∧ m_value_type restored = m_value_type src
    ∧ m_value_len restored = m_value_len src.
Proof.
  intros Hperm.
  assert (NoDup its.*1) as Hnd.
  { rewrite Hperm. apply NoDup_fst_map_to_list. }
  assert (length its = size (m_map_values src)) as Hlen.
  { rewrite Hperm. by rewrite length_map_to_list. }
  assert (list_to_map its = m_map_values src) as Hmap.
  { rewrite (list_to_map_proper its (map_to_list (m_map_values src)));
      try done.
    apply list_to_map_to_list. }
  unfold serialize_in_order, deserialize. rewrite serialize_entries_app.
  simpl. rewrite Nat2Z.id, <- Hlen.
  rewrite deserialize_entries_merge by done.
  simpl. eexists. split; [reflexivity|]. simpl. rewrite Hmap.
  split_and!; try done.
  intros k o Hk. by apply lookup_union_Some_l.
Qed.

(** ** The row processor, continued *)

Section ProcessCases.
Context `{host : vdb_udf}.

(** The three ways a call of [process] ends. *)
Lemma process_cases (self : PivotClass) (rd_in : RowDesc) :
  let p := m_pivotParameters self in
  let key := process_key (pivotColType p) rd_in (pivotColIdx p) in
  (isNull rd_in (pivotColIdx p) = true ∧ process self rd_in = Err NullPivotKey)
  ∨ (isNull rd_in (pivotColIdx p) = false ∧ row_offset self rd_in < 0
     ∧ process self rd_in = Err (PivotKeyNotFound key))
  ∨ (isNull rd_in (pivotColIdx p) = false ∧ 0 <= row_offset self rd_in
     ∧ ∃ self', process self rd_in = Ok self').
Proof.
  intros p key. unfold row_offset. fold p key. unfold process. fold p key.
  destruct (isNull rd_in (pivotColIdx p)); [by left|]. right.
  destruct (Z.ltb_spec (findcolumnoffset (m_map self) key) 0) as [Hlt|Hge];
    [by left|]. right. split_and!; [done..|].
  destruct (Z.le_gt_cases (numpivotValCols p) 0) as [Hv|Hv].
  - replace (Z.to_nat (numpivotValCols p)) with 0%nat by lia.
    simpl. by eexists.
  - destruct (copy_val_cols_succeeds (Z.to_nat (numpivotValCols p)) 0 p
                (Z.of_nat (length (grpCols p)))
                (findcolumnoffset (m_map self) key) rd_in
                (after_first_time self rd_in)) as [out' Hout]; [lia|nia|].
    rewrite Hout. simpl. by eexists.
Qed.

(** The third case, as an implication. *)
Lemma process_Ok_of_offset (self : PivotClass) (rd_in : RowDesc) :
  isNull rd_in (pivotColIdx (m_pivotParameters self)) = false →
  0 <= row_offset self rd_in →
  ∃ self', process self rd_in = Ok self'.
Proof.
  intros Hn Ho.
  destruct (process_cases self rd_in)
    as [[Hn' _]|[(_ & Ho' & _)|(_ & _ & Hok)]]; [congruence|lia|done].
Qed.

(** [process] succeeds exactly when the pivot column of the row is not null
    and the offset found for its key is not negative. *)
Theorem process_Ok_iff (self : PivotClass) (rd_in : RowDesc) :
  (∃ self', process self rd_in = Ok self')
  ↔ isNull rd_in (pivotColIdx (m_pivotParameters self)) = false
    ∧ 0 <= row_offset self rd_in.
Proof.
  destruct (process_cases self rd_in)
    as [[Hn He]|[(Hn & Ho & He)|(Hn & Ho & Hok)]].
  - split; [intros [s Hs]; congruence | intros [? _]; congruence].
  - split; [intros [s Hs]; congruence | intros [_ ?]; lia].
  - done.
Qed.

(** [process] fails in two ways only: with NullPivotKey on a null pivot
    column, and with PivotKeyNotFound, carrying the key of the row, when the
    offset found is negative.  The test on [thiscolpos] never fires. *)
Theorem process_Err_iff (self : PivotClass) (rd_in : RowDesc) (e : error) :
  let p := m_pivotParameters self in
  let key := process_key (pivotColType p) rd_in (pivotColIdx p) in
  process self rd_in = Err e
  ↔ (isNull rd_in (pivotColIdx p) = true ∧ e = NullPivotKey)
    ∨ (isNull rd_in (pivotColIdx p) = false ∧ row_offset self rd_in < 0
       ∧ e = PivotKeyNotFound key).
Proof.
  intros p key. subst p key.
  destruct (process_cases self rd_in)
    as [[Hn He]|[(Hn & Ho & He)|(Hn & Ho & [s Hs])]].
  - rewrite He. split.
    + intros [= <-]. by left.
    + intros [[_ ->]|(Hn' & _)]; [done|congruence].
  - rewrite He. split.
    + intros [= <-]. by right.
    + intros [[Hn' _]|(_ & _ & ->)]; [congruence|done].
  - rewrite Hs. split; [done|].
    intros [[Hn' _]|(_ & Ho' & _)]; [congruence|lia].
Qed.

(** A key that the map holds with a negative offset is reported as not
    found: the offset and the -1 of a missing key are told apart by sign
    only. *)
Theorem process_negative_offset (self : PivotClass) (rd_in : RowDesc)
    (o : int_t) :
  let p := m_pivotParameters self in
  let key := process_key (pivotColType p) rd_in (pivotColIdx p) in
  isNull rd_in (pivotColIdx p) = false →
  m_map_values (m_map self) !! key = Some o →
  o < 0 →
  process self rd_in = Err (PivotKeyNotFound key).
Proof.
  intros p key Hnull Hkey Ho. subst p key.
  assert (row_offset self rd_in = o) as Hoff.
  { unfold row_offset, findcolumnoffset. by rewrite Hkey. }
  destruct (process_cases self rd_in)
    as [[Hn He]|[(Hn & Ho' & He)|(Hn & Ho' & _)]];
    [congruence|done|lia].
Qed.

End ProcessCases.

(** ** The rows of a partition *)

Lemma foldl_write_none {A B} (Q : A → Prop) `{!∀ y, Decision (Q y)}
    (f : A → B) (l : list A) (init : B) :
  Forall (λ y, ¬ Q y) l →
  foldl (λ acc y, if decide (Q y) then f y else acc) init l = init.
Proof.
  revert init. induction l as [|y l IH]; intros init Hl; simpl; [done|].
  apply Forall_cons in Hl as [Hy Hl]. rewrite IH by done.
  by case_decide.
Qed.

Lemma foldl_write_last {A B} (Q : A → Prop) `{!∀ y, Decision (Q y)}
    (f : A → B) (l1 l2 : list A) (x : A) (init : B) :
  Q x → Forall (λ y, ¬ Q y) l2 →
  foldl (λ acc y, if decide (Q y) then f y else acc) init (l1 ++ x :: l2)
  = f x.
Proof.
  intros Hx Hl2. rewrite foldl_app. simpl.
  rewrite foldl_write_none by done. by case_decide.
Qed.

Section Partition.
Context `{host : vdb_udf}.

Lemma process_rows_inv (rows : list RowDesc) (self self' : PivotClass) :
  process_rows self rows = Ok self' →
  let p := m_pivotParameters self in
  let G := Z.of_nat (length (grpCols p)) in
  let V := numpivotValCols p in
  m_map self' = m_map self
  ∧ m_pivotParameters self' = p
  ∧ (rows ≠ [] → m_first_time self' = false)
  ∧ Forall (λ r, isNull r (pivotColIdx p) = false ∧ 0 <= row_offset self r)
      rows
  ∧ ∀ j,
      m_out_rd self' j
      = foldl
          (λ acc r,
             if decide (G + row_offset self r * V <= j
                        < G + row_offset self r * V + V)
             then r (nth (Z.to_nat (j - (G + row_offset self r * V)))
                       (pivotValCols p) 0)
             else acc)
          (match rows with
           | [] => m_out_rd self j
           | r0 :: _ => after_first_time self r0 j
           end) rows.
Proof.
  revert self. induction rows as [|r rows IH]; intros self Hrows p G V.
  - simpl in Hrows. injection Hrows as <-. by split_and!.
  - simpl in Hrows. unfold rbind in Hrows.
    destruct (process self r) as [s|e] eqn:Hr; [|done].
    destruct (process_Ok_inv _ _ _ Hr) as (Hn & Ho & Hmap & Hpar & Hft & Hout).
    destruct (IH s Hrows) as (Hmap' & Hpar' & _ & Hall & Hout').
    assert (∀ r', row_offset s r' = row_offset self r') as Hoff.
    { intros r'. unfold row_offset. by rewrite Hmap, Hpar. }
    split_and!.
    + by rewrite Hmap'.
    + by rewrite Hpar'.
    + intros _. destruct rows as [|r1 rows]; [|by apply IH in Hrows as (_ & _ & H & _); apply H].
      simpl in Hrows. by injection Hrows as <-.
    + apply Forall_cons. split; [done|].
      rewrite Hpar in Hall. fold p in Hall.
      eapply Forall_impl; [exact Hall|]. intros r' [? ?]. by rewrite <- Hoff.
    + intros j. rewrite Hout'.
      assert ((match rows with
               | [] => m_out_rd s j
               | r0 :: _ => after_first_time s r0 j
               end) = m_out_rd s j) as ->.
      { destruct rows; [done|]. unfold after_first_time. by rewrite Hft. }
      rewrite Hout. subst p G V. unfold row_offset.
      by rewrite Hmap, Hpar.
Qed.

End Partition.

Section PartitionResults.
Context `{host : vdb_udf}.

(** Row processing never changes the map or the parameters of the
    processor, whatever the rows, and a processor that has taken a row is
    past its first time. *)
Theorem process_rows_keeps_map (rows : list RowDesc)
    (self self' : PivotClass) :
  process_rows self rows = Ok self' →
  m_map self' = m_map self
  ∧ m_pivotParameters self' = m_pivotParameters self
  ∧ (rows ≠ [] → m_first_time self' = false).
Proof.
  intros Hrows.
  destruct (process_rows_inv rows self self' Hrows) as (? & ? & ? & _).
  done.
Qed.

(** The rows of a partition, given in order to a new processor: when all
    succeed, the output row holds the grouping columns of the first row in
    front; in the block of each key that some row carries, the value
    columns of the last row with that key; and a null in every position of
    the first (map size) blocks whose key no row carries. *)
Theorem process_rows_pivot (self self' : PivotClass) (r0 : RowDesc)
    (rs : list RowDesc) :
  let p := m_pivotParameters self in
  let G := Z.of_nat (length (grpCols p)) in
  let V := numpivotValCols p in
  let K := Z.of_nat (getMapSize (m_map self)) in
  let rows := r0 :: rs in
  m_first_time self = true →
  process_rows self rows = Ok self' →
  (∀ j, 0 <= j < G →
     m_out_rd self' j = r0 (nth (Z.to_nat j) (grpCols p) 0))
  ∧ (∀ (i : nat) (r : RowDesc) (c : int_t),
       rows !! i = Some r →
       (∀ (i' : nat) (r' : RowDesc),
          (i < i')%nat → rows !! i' = Some r' →
          row_offset self r' ≠ row_offset self r) →
       0 <= c < V →
       m_out_rd self' (G + row_offset self r * V + c)
       = r (nth (Z.to_nat c) (pivotValCols p) 0))
  ∧ (∀ (o c : int_t),
       0 <= o < K → 0 <= c < V →
       (∀ r, r ∈ rows → row_offset self r ≠ o) →
       m_out_rd self' (G + o * V + c) = None).
Proof.
  intros p G V K rows Hft Hrows.
  destruct (process_rows_inv rows self self' Hrows)
    as (_ & _ & _ & Hall & Hout).
  fold p G V in Hall, Hout.
  assert (∀ j,
            m_out_rd self' j
            = foldl
                (λ acc r,
                   if decide (G + row_offset self r * V <= j
                              < G + row_offset self r * V + V)
                   then r (nth (Z.to_nat (j - (G + row_offset self r * V)))
                             (pivotValCols p) 0)
                   else acc)
                (after_first_time self r0 j) rows) as Hfold
    by (intros j; apply Hout).
  clear Hout.
  assert (∀ j, after_first_time self r0 j
               = if decide (G <= j < G + K * V) then None
                 else if decide (0 <= j < G)
                      then r0 (nth (Z.to_nat j) (grpCols p) 0)
                      else m_out_rd self j) as Hinit.
  { intros j. unfold after_first_time. rewrite Hft.
    by rewrite first_time_init_spec. }
  assert (∀ r, r ∈ rows → 0 <= row_offset self r) as Hnonneg.
  { intros r Hr. rewrite Forall_forall in Hall. by apply Hall. }
  split_and!.
  - intros j Hj.
    rewrite (Hfold j).
    rewrite (foldl_write_none
               (λ r, G + row_offset self r * V <= j
                     < G + row_offset self r * V + V)).
    + rewrite Hinit. case_decide; [nia|]. case_decide; [done|lia].
    + apply Forall_forall. intros r Hr.
      pose proof (Hnonneg r Hr). nia.
  - intros i r c Hi Hlast Hc.
    set (j := G + row_offset self r * V + c).
    rewrite (Hfold j).
    rewrite <- (take_drop_middle rows i r Hi).
    rewrite (foldl_write_last
               (λ r', G + row_offset self r' * V <= j
                      < G + row_offset self r' * V + V)
               (λ r', r' (nth (Z.to_nat (j - (G + row_offset self r' * V)))
                            (pivotValCols p) 0))).
    + unfold j. f_equal. f_equal. lia.
    + unfold j. lia.
    + apply Forall_forall. intros r' Hr'.
      apply list_elem_of_lookup_1 in Hr' as [n Hn].
      rewrite lookup_drop in Hn.
      pose proof (Hlast (S i + n)%nat r' ltac:(lia) Hn) as Hne.
      unfold j. nia.
  - intros o c Ho Hc Hnone.
    set (j := G + o * V + c).
    rewrite (Hfold j).
    rewrite (foldl_write_none
               (λ r, G + row_offset self r * V <= j
                     < G + row_offset self r * V + V)).
    + rewrite Hinit. unfold j. case_decide; [done|nia].
    + apply Forall_forall. intros r Hr.
      pose proof (Hnone r Hr). unfold j. nia.
Qed.

(** Two rows with different offsets can be processed in either order: the
    output row is the same, provided that on a first call the two rows
    agree on the grouping columns. *)
Theorem process_commutes (self a ab : PivotClass) (r1 r2 : RowDesc) :
  process self r1 = Ok a →
  process a r2 = Ok ab →
  row_offset self r1 ≠ row_offset self r2 →
  (m_first_time self = true →
   ∀ g, g ∈ grpCols (m_pivotParameters self) → r1 g = r2 g) →
  ∃ b ba,
    process self r2 = Ok b
    ∧ process b r1 = Ok ba
    ∧ ∀ j, m_out_rd ba j = m_out_rd ab j.
Proof.
  intros H1 H12 Hne Hgrp.
  destruct (process_Ok_inv _ _ _ H1) as (Hn1 & Ho1 & Hm1 & Hp1 & Hf1 & Hout1).
  destruct (process_Ok_inv _ _ _ H12)
    as (Hn2 & Ho2 & Hm2 & Hp2 & Hf2 & Hout2).
  rewrite Hp1 in Hn2. rewrite Hm1, Hp1 in Ho2. rewrite Hm1, Hp1 in Hout2.
  destruct (process_Ok_of_offset self r2) as [b Hb]; [done..|].
  destruct (process_Ok_inv _ _ _ Hb) as (_ & _ & Hmb & Hpb & Hfb & Houtb).
  destruct (process_Ok_of_offset b r1) as [ba Hba].
  { by rewrite Hpb. }
  { unfold row_offset. by rewrite Hmb, Hpb. }
  exists b, ba. split_and!; [done..|].
  destruct (process_Ok_inv _ _ _ Hba) as (_ & _ & _ & _ & _ & Houtba).
  rewrite Hmb, Hpb in Houtba.
  intros j. rewrite Houtba, Hout2.
  unfold after_first_time at 1 2. rewrite Hfb, Hf1, Houtb, Hout1.
  unfold row_offset in Hne.
  set (p := m_pivotParameters self) in *.
  set (G := Z.of_nat (length (grpCols p))) in *.
  set (V := numpivotValCols p) in *.
  set (o1 := findcolumnoffset (m_map self)
               (process_key (pivotColType p) r1 (pivotColIdx p))) in *.
  set (o2 := findcolumnoffset (m_map self)
               (process_key (pivotColType p) r2 (pivotColIdx p))) in *.
  assert (after_first_time self r2 j = after_first_time self r1 j) as Hinit.
  { unfold after_first_time.
    destruct (m_first_time self) eqn:Hft; [|done].
    rewrite !first_time_init_spec. fold p G.
    case_decide; [done|]. case_decide as Hj; [|done].
    symmetry. apply Hgrp; [done|].
    apply list_elem_of_In, nth_In. lia. }
  rewrite Hinit.
  repeat case_decide; try done; nia.
Qed.

End PartitionResults.

(** ** DescribeCmd *)

Lemma describe_grp_cols_spec (cols : list ColumnIndex) (d : Declarations) :
  describe_grp_cols cols d
  = {| partitionByColumns := partitionByColumns d ++ cols;
       orderByColumns := orderByColumns d ++ cols;
       outputColumns := outputColumns d ++ map CopiedColumn cols;
       globalPartitioning := globalPartitioning d;
       sessionCommands := sessionCommands d |}.
Proof.
  revert d. induction cols as [|c cols IH]; intros d; simpl.
  - rewrite !app_nil_r. by destruct d.
  - rewrite IH. simpl. by rewrite <- !app_assoc.
Qed.

(** The output columns one catalog row adds. *)
Lemma describe_row_cols_spec (n : nat) (r : nat) (p : PivotParameters)
    (rowp : RowDesc) (d : Declarations) :
  describe_row_cols n (Z.of_nat r) p rowp d
  = {| partitionByColumns := partitionByColumns d;
       orderByColumns := orderByColumns d;
       outputColumns :=
         outputColumns d
         ++ map (λ i : nat,
                   AddedColumn
                     (nth i (pivotValColDescs p)
                        {| col_type := 0; col_length := 0 |})
                     (getValueAsString rowp (Z.of_nat i + 1)))
              (seq r n);
       globalPartitioning := globalPartitioning d;
       sessionCommands := sessionCommands d |}.
Proof.
  revert r d. induction n as [|n IH]; intros r d; simpl.
  - rewrite app_nil_r. by destruct d.
  - replace (Z.of_nat r + 1) with (Z.of_nat (S r)) by lia.
    rewrite IH. simpl. rewrite Nat2Z.id, <- app_assoc. simpl.
    by replace (Z.of_nat (S r)) with (Z.of_nat r + 1) by lia.
Qed.

Lemma describe_rows_spec (rows : list RowDesc) (p : PivotParameters)
    (d : Declarations) :
  0 <= numpivotValCols p →
  describe_rows rows p d
  = {| partitionByColumns := partitionByColumns d;
       orderByColumns := orderByColumns d;
       outputColumns :=
         outputColumns d
         ++ concat
              (map (λ rowp,
                      map (λ i : nat,
                             AddedColumn
                               (nth i (pivotValColDescs p)
                                  {| col_type := 0; col_length := 0 |})
                               (getValueAsString rowp (Z.of_nat i + 1)))
                        (seq 0 (Z.to_nat (numpivotValCols p))))
                 rows);
       globalPartitioning := globalPartitioning d;
       sessionCommands := sessionCommands d |}.
Proof.
  intros HV. revert d. induction rows as [|rowp rows IH]; intros d; simpl.
  - rewrite app_nil_r. by destruct d.
  - rewrite IH. change 0 with (Z.of_nat 0).
    rewrite describe_row_cols_spec. simpl. by rewrite <- app_assoc.
Qed.

Lemma lookup_concat_blocks {A B} (f : A → nat → B) (n : nat) (l : list A)
    (i r : nat) (x : A) :
  l !! i = Some x → (r < n)%nat →
  concat (map (λ a, map (f a) (seq 0 n)) l) !! (i * n + r)%nat
  = Some (f x r).
Proof.
  revert i. induction l as [|a l IH]; intros i Hi Hr; [done|].
  destruct i as [|i]; simpl in *.
  - injection Hi as ->. rewrite lookup_app_l by (by rewrite length_map, length_seq).
    rewrite list_lookup_fmap, lookup_seq_lt by done. done.
  - rewrite lookup_app_r by (rewrite length_map, length_seq; lia).
    rewrite length_map, length_seq.
    replace (n + i * n + r - n)%nat with (i * n + r)%nat by lia.
    by apply IH.
Qed.

Lemma length_concat_blocks {A B} (f : A → nat → B) (n : nat) (l : list A) :
  length (concat (map (λ a, map (f a) (seq 0 n)) l)) = (length l * n)%nat.
Proof.
  induction l as [|a l IH]; simpl; [done|].
  rewrite length_app, length_map, length_seq, IH. lia.
Qed.

Lemma validate_describe_fields (arg : TableArg) (p0 p : PivotParameters) :
  validate arg p0 false = Ok p →
  numpivotValCols p = Z.of_nat (length (pivotValCols p))
  ∧ pivotValColDescs p
    = map (getInputColumn arg) (pivotValCols p)
      ++ drop (length (pivotValCols p)) (pivotValColDescs p0).
Proof.
  unfold validate. intros Hv.
  destruct (getNamedParameterValue arg NPV_PIVOTCOL) as [pc|]; [|done].
  destruct (kindOfParameter pc); simpl in Hv; try done.
  destruct (getNamedParameterValue arg NPV_GROUPCOL); simpl in Hv; [|done].
  destruct (getNamedParameterValue arg NPV_COLQRY); simpl in Hv; [|done].
  destruct (getNamedParameterValue arg NPV_PIVOTVAL) as [pv|]; [|done].
  destruct (kindOfParameter pv); simpl in Hv; try done;
    by injection Hv as <-.
Qed.

(** [validate] never changes the size of [pivotValColDescs], so the
    parameters the processor of [CreateCmd] keeps, a copy of a struct that
    was declared empty, hold no descriptor. *)
Lemma validate_descs_size (arg : TableArg) (p0 p : PivotParameters)
    (start_cmd : bool) :
  validate arg p0 start_cmd = Ok p →
  pivotValColDescs_size p = pivotValColDescs_size p0.
Proof.
  unfold validate. intros Hv.
  destruct (getNamedParameterValue arg NPV_PIVOTCOL) as [pc|]; [|done].
  destruct (kindOfParameter pc); simpl in Hv; try done.
  destruct (getNamedParameterValue arg NPV_GROUPCOL); simpl in Hv; [|done].
  destruct (getNamedParameterValue arg NPV_COLQRY); simpl in Hv; [|done].
  destruct (getNamedParameterValue arg NPV_PIVOTVAL) as [pv|]; [|done].
  destruct (kindOfParameter pv); simpl in Hv; try done;
    by injection Hv as <-.
Qed.

Lemma CreateCmd_keeps_no_descriptor (arg : TableArg) (store store' : RowStore)
    (functor : PivotClass) :
  CreateCmd arg store = Ok (functor, store') →
  pivotValColDescs (m_pivotParameters functor) = [].
Proof.
  unfold CreateCmd.
  destruct (validate arg PivotParameters_new false) as [p|] eqn:Hv; simpl;
    [|done].
  intros [= <- <-]. simpl.
  by rewrite (validate_descs_size _ _ _ _ Hv).
Qed.

(** Both calls of [validate], for Describe and for Start, read the same
    named parameters. *)
Lemma validate_start_agrees (arg : TableArg) (p0 p0' p : PivotParameters) :
  validate arg p0 false = Ok p →
  ∃ p', validate arg p0' true = Ok p'
        ∧ grpCols p' = grpCols p
        ∧ pivotColIdx p' = pivotColIdx p
        ∧ pivotValCols p' = pivotValCols p
        ∧ numpivotValCols p' = numpivotValCols p
        ∧ collistquery p' = collistquery p.
Proof.
  unfold validate. intros Hv.
  destruct (getNamedParameterValue arg NPV_PIVOTCOL) as [pc|]; [|done].
  destruct (kindOfParameter pc); simpl in *; try done.
  destruct (getNamedParameterValue arg NPV_GROUPCOL); simpl in *; [|done].
  destruct (getNamedParameterValue arg NPV_COLQRY); simpl in *; [|done].
  destruct (getNamedParameterValue arg NPV_PIVOTVAL) as [pv|]; [|done].
  destruct (kindOfParameter pv); simpl in *; try done;
    injection Hv as <-; eexists; split; try reflexivity; done.
Qed.

Section Describe.
Context `{host : vdb_udf}.

Lemma check_label_cols_cases (n s : nat) (schema : list Column) :
  (s + n < length schema)%nat →
  (check_label_cols n (Z.of_nat s) schema = Ok tt
   ∧ ∀ i, (s < i ≤ s + n)%nat → label_is_string schema i)
  ∨ (check_label_cols n (Z.of_nat s) schema = Err SchemaError
     ∧ ∃ i, (s < i ≤ s + n)%nat ∧ ¬ label_is_string schema i).
Proof.
  revert s. induction n as [|n IH]; intros s Hlen; simpl.
  - left. split; [done|]. intros i Hi. lia.
  - replace (Z.to_nat (Z.of_nat s + 1)) with (S s) by lia.
    destruct (schema !! S s) as [c|] eqn:Hc.
    2: { apply lookup_ge_None in Hc. lia. }
    destruct (Z.eqb_spec (col_type c) TypeVarChar) as [Hv|Hv];
      destruct (Z.eqb_spec (col_type c) TypeBpChar) as [Hb|Hb]; simpl.
    4: { right. split; [done|]. exists (S s). split; [lia|].
         intros (c' & Hc' & [?|?]); congruence. }
    all: replace (Z.of_nat s + 1) with (Z.of_nat (S s)) by lia;
      destruct (IH (S s) ltac:(lia)) as [[Hok Hall]|[Herr (i & Hi & Hbad)]];
      [left; split; [done|]; intros i Hi;
         destruct (decide (i = S s)) as [->|Hne];
         [exists c; split; [done|]; by (left + right) | apply Hall; lia]
      |right; split; [done|]; exists i; split; [lia|done]].
Qed.

Lemma DescribeCmd_outputs (arg : TableArg) (p : PivotParameters)
    (d d' : Declarations) :
  validate arg PivotParameters_new false = Ok p →
  DescribeCmd arg d = Ok d' →
  d' = {| partitionByColumns := partitionByColumns d ++ grpCols p;
          orderByColumns := orderByColumns d ++ grpCols p;
          outputColumns :=
            (outputColumns d ++ map CopiedColumn (grpCols p))
            ++ concat
                 (map (λ rowp,
                         map (λ i : nat,
                                AddedColumn
                                  (getInputColumn arg
                                     (nth i (pivotValCols p) 0))
                                  (getValueAsString rowp (Z.of_nat i + 1)))
                           (seq 0 (length (pivotValCols p))))
                    (qr_rows (sql_open arg (collistquery p))));
          globalPartitioning := true;
          sessionCommands := true |}.
Proof.
  intros Hv Hd. unfold DescribeCmd in Hd. rewrite Hv in Hd. simpl in Hd.
  destruct (validate_describe_fields _ _ _ Hv) as [HV Hdescs].
  destruct (_ <? _); [done|]. simpl in Hd.
  destruct (check_label_cols _ _ _); [|done]. simpl in Hd.
  injection Hd as <-.
  rewrite describe_rows_spec by lia. simpl.
  rewrite describe_grp_cols_spec. simpl. f_equal. f_equal.
  rewrite HV, Nat2Z.id. f_equal. apply map_ext. intros rowp.
  apply map_ext_in. intros i Hi. apply in_seq in Hi. f_equal.
  rewrite Hdescs, app_nth1 by (rewrite length_map; lia).
  rewrite (nth_indep _ _ (getInputColumn arg 0))
    by (rewrite length_map; lia).
  apply map_nth.
Qed.

(** [DescribeCmd], once [validate] has passed, succeeds exactly when the
    catalog schema has a column more than there are value columns and the
    columns 1 to that number are string columns; otherwise it fails with
    SchemaError. *)
Theorem DescribeCmd_Ok_iff (arg : TableArg) (p : PivotParameters)
    (d : Declarations) :
  validate arg PivotParameters_new false = Ok p →
  let schema := qr_schema (sql_open arg (collistquery p)) in
  let V := length (pivotValCols p) in
  let schema_ok :=
    (V + 1 ≤ length schema)%nat
    ∧ ∀ i, (1 ≤ i ≤ V)%nat → label_is_string schema i in
  ((∃ d', DescribeCmd arg d = Ok d') ↔ schema_ok)
  ∧ (¬ schema_ok → DescribeCmd arg d = Err SchemaError).
Proof.
  intros Hv schema V schema_ok.
  destruct (validate_describe_fields _ _ _ Hv) as [HV _].
  unfold DescribeCmd. rewrite Hv. simpl. fold schema. rewrite HV. fold V.
  rewrite Nat2Z.id.
  destruct (Z.ltb_spec (Z.of_nat (length schema)) (Z.of_nat V + 1))
    as [Hlt|Hge]; simpl.
  { assert (¬ schema_ok) by (intros [? _]; lia).
    split; [|done]. split; [by intros [? ?]|done]. }
  change 0 with (Z.of_nat 0).
  destruct (check_label_cols_cases V 0 schema ltac:(lia))
    as [[-> Hall]|[-> (i & Hi & Hbad)]]; simpl.
  - assert schema_ok.
    { split; [lia|]. intros i Hi. apply Hall. lia. }
    split; [|done]. split; [done|]. intros _. by eexists.
  - assert (¬ schema_ok).
    { intros [_ Hall]. apply Hbad, Hall. lia. }
    split; [|done]. split; [by intros [? ?]|done].
Qed.

(** What [DescribeCmd] declares: partitioning and ordering by the grouping
    columns; as output columns the clones of the grouping columns first,
    then, for catalog row [i] and value column [r], at position
    [G + i*V + r], a column with the descriptor of that value column and
    the label [r + 1] of that row as its name; so [G + rows*V] output
    columns in all. *)
Theorem DescribeCmd_layout (arg : TableArg) (p : PivotParameters)
    (d' : Declarations) :
  validate arg PivotParameters_new false = Ok p →
  DescribeCmd arg Declarations_new = Ok d' →
  let rows := qr_rows (sql_open arg (collistquery p)) in
  let G := length (grpCols p) in
  let V := length (pivotValCols p) in
  partitionByColumns d' = grpCols p
  ∧ orderByColumns d' = grpCols p
  ∧ globalPartitioning d' = true
  ∧ sessionCommands d' = true
  ∧ length (outputColumns d') = (G + length rows * V)%nat
  ∧ (∀ (i : nat) (g : ColumnIndex),
       grpCols p !! i = Some g →
       outputColumns d' !! i = Some (CopiedColumn g))
  ∧ (∀ (i r : nat) (rowp : RowDesc),
       rows !! i = Some rowp → (r < V)%nat →
       outputColumns d' !! (G + i * V + r)%nat
       = Some (AddedColumn (getInputColumn arg (nth r (pivotValCols p) 0))
                 (getValueAsString rowp (Z.of_nat r + 1)))).
Proof.
  intros Hv Hd rows G V.
  rewrite (DescribeCmd_outputs _ _ _ _ Hv Hd). simpl.
  split_and!; try done.
  - rewrite length_app, length_map, length_concat_blocks. done.
  - intros i g Hi.
    rewrite lookup_app_l
      by (rewrite length_map; by eapply lookup_lt_Some).
    by rewrite list_lookup_fmap, Hi.
  - intros i r rowp Hi Hr.
    rewrite lookup_app_r by (rewrite length_map; fold G; lia).
    rewrite length_map. fold G.
    replace (G + i * V + r - G)%nat with (i * V + r)%nat by lia.
    by apply (lookup_concat_blocks
                (λ rowp (i : nat),
                   AddedColumn (getInputColumn arg (nth i (pivotValCols p) 0))
                     (getValueAsString rowp (Z.of_nat i + 1)))).
Qed.

(** Describe, Start and the row processor agree: the position [process]
    writes value column [c] to, for a key the map built at Start holds at
    offset [o], is the output column that Describe named after label
    [c + 1] of catalog row [o], and that row carries the key. *)
Theorem pivot_position_is_labelled (arg : TableArg) (p : PivotParameters)
    (d' : Declarations) (tblMap : PivotMapTable) (k : string) (o c : int_t) :
  validate arg PivotParameters_new false = Ok p →
  DescribeCmd arg Declarations_new = Ok d' →
  StartCmd arg = Ok tblMap →
  m_map_values tblMap !! k = Some o →
  0 <= c < numpivotValCols p →
  let G := Z.of_nat (length (grpCols p)) in
  ∃ rowp,
    qr_rows (sql_open arg (collistquery p)) !! Z.to_nat o = Some rowp
    ∧ add_key (m_pivotcol_type tblMap) rowp = k
    ∧ 0 <= o
    ∧ outputColumns d' !! Z.to_nat (G + o * numpivotValCols p + c)
      = Some (AddedColumn
                (getInputColumn arg (nth (Z.to_nat c) (pivotValCols p) 0))
                (getValueAsString rowp (c + 1))).
Proof.
  intros Hv Hd Hstart Hk Hc G.
  destruct (validate_describe_fields _ _ _ Hv) as [HV _].
  destruct (validate_start_agrees arg PivotParameters_new PivotParameters_new
              p Hv) as (p' & Hv' & _ & _ & _ & _ & Hq).
  destruct (qr_schema (sql_open arg (collistquery p')) !! 0%nat)
    as [c0|] eqn:Hs.
  2: { unfold StartCmd in Hstart. rewrite Hv' in Hstart. simpl in Hstart.
       by rewrite Hs in Hstart. }
  destruct (StartCmd_lookup arg p' c0 k Hv' Hs) as (t & Ht & Hty & _ & Hl).
  rewrite Hstart in Ht. injection Ht as <-. rewrite Hq in Hl.
  rewrite Hl in Hk.
  destruct (list_find _ _) as [[i x]|] eqn:Hfind; [|done].
  simpl in Hk. injection Hk as <-.
  apply list_find_Some in Hfind as (Hi & -> & _).
  rewrite list_lookup_fmap in Hi.
  destruct (qr_rows (sql_open arg (collistquery p)) !! i)
    as [rowp|] eqn:Hrow; [|done].
  simpl in Hi. injection Hi as Hkey.
  exists rowp. rewrite Nat2Z.id, Hty. split_and!; [done|done|lia|].
  rewrite (DescribeCmd_outputs _ _ _ _ Hv Hd). simpl.
  rewrite lookup_app_r by (rewrite length_map; unfold G; lia).
  rewrite length_map.
  replace (Z.to_nat (G + Z.of_nat i * numpivotValCols p + c)
           - length (grpCols p))%nat
    with (i * length (pivotValCols p) + Z.to_nat c)%nat
    by (unfold G; rewrite HV; lia).
  rewrite (lookup_concat_blocks
             (λ rowp (i : nat),
                AddedColumn (getInputColumn arg (nth i (pivotValCols p) 0))
                  (getValueAsString rowp (Z.of_nat i + 1)))
             _ _ i (Z.to_nat c) rowp Hrow) by lia.
  by rewrite Z2Nat.id by lia.
Qed.

End Describe.

(** ** last_day for every month *)

Section LastDayMonths.
Context `{cal : padb_udf}.

Lemma calc_lastdayofmonth_fields (in_date : date_t) :
  plus_days_within_month →
  1 <= extract_month_from_date in_date <= 12 →
  extract_year_from_date (calc_lastdayofmonth in_date)
  = extract_year_from_date in_date
  ∧ extract_month_from_date (calc_lastdayofmonth in_date)
    = extract_month_from_date in_date
  ∧ extract_day_from_date (calc_lastdayofmonth in_date)
    = month_length (extract_year_from_date in_date)
        (extract_month_from_date in_date).
Proof.
  intros Hplus Hmon. unfold calc_lastdayofmonth.
  set (y := extract_year_from_date in_date).
  set (m := extract_month_from_date in_date) in *.
  set (d := extract_day_from_date in_date).
  assert ((if isleap y && (m =? 2) then 29
           else nth (Z.to_nat (m - 1)) m_last_days 0) = month_length y m)
    as Hlen.
  { unfold month_length. rewrite leap_yearb_isleap.
    assert (m = 1 ∨ m = 2 ∨ m = 3 ∨ m = 4 ∨ m = 5 ∨ m = 6 ∨ m = 7 ∨ m = 8
            ∨ m = 9 ∨ m = 10 ∨ m = 11 ∨ m = 12) as Hcases by lia.
    destruct (isleap y);
      repeat (destruct Hcases as [Hm|Hcases]; [by rewrite Hm|]);
      by rewrite Hcases. }
  assert (1 <= month_length y m) as Hpos.
  { unfold month_length. repeat case_match; lia. }
  destruct (isleap y && (m =? 2)).
  - destruct (Hplus in_date (29 - d)) as (Hy & Hm & Hd).
    { fold y m d. lia. }
    fold y m d in Hy, Hm, Hd. rewrite Hy, Hm, Hd. split_and!; [done..|lia].
  - destruct (Hplus in_date (nth (Z.to_nat (m - 1)) m_last_days 0 - d))
      as (Hy & Hm & Hd).
    { fold y m d. lia. }
    fold y m d in Hy, Hm, Hd. rewrite Hy, Hm, Hd. split_and!; [done..|lia].
Qed.

(** On a host whose [date_plus_days] moves the day of the month inside a
    month, [last_day] of a non-null date of any month returns the date of
    the same year and month whose day is the length of that month, so a
    day that is not before the day of a valid input. *)
Theorem last_day_is_month_end (in_date : date_t) :
  plus_days_within_month →
  1 <= extract_month_from_date in_date <= 12 →
  ∃ retdate,
    last_day (Some in_date) = Some retdate
    ∧ extract_year_from_date retdate = extract_year_from_date in_date
    ∧ extract_month_from_date retdate = extract_month_from_date in_date
    ∧ extract_day_from_date retdate
      = month_length (extract_year_from_date in_date)
          (extract_month_from_date in_date)
    ∧ (extract_day_from_date in_date
       <= month_length (extract_year_from_date in_date)
            (extract_month_from_date in_date) →
       extract_day_from_date in_date <= extract_day_from_date retdate).
Proof.
  intros Hplus Hmon. eexists. split; [reflexivity|].
  destruct (calc_lastdayofmonth_fields in_date Hplus Hmon) as (Hy & Hm & Hd).
  split_and!; [done..|]. intros Hle. by rewrite Hd.
Qed.

(** [last_day] applied to its own result changes no field of the date. *)
Theorem last_day_idempotent (in_date : date_t) :
  plus_days_within_month →
  1 <= extract_month_from_date in_date <= 12 →
  ∃ r1 r2,
    last_day (Some in_date) = Some r1
    ∧ last_day (Some r1) = Some r2
    ∧ extract_year_from_date r2 = extract_year_from_date r1
    ∧ extract_month_from_date r2 = extract_month_from_date r1
    ∧ extract_day_from_date r2 = extract_day_from_date r1.
Proof.
  intros Hplus Hmon. do 2 eexists. split_and!; [reflexivity..| | |].
  all: destruct (calc_lastdayofmonth_fields in_date Hplus Hmon)
         as (Hy & Hm & Hd);
    destruct (calc_lastdayofmonth_fields (calc_lastdayofmonth in_date) Hplus)
      as (Hy2 & Hm2 & Hd2); [by rewrite Hm|];
    by rewrite ?Hy2, ?Hm2, ?Hd2, ?Hy, ?Hm, ?Hd.
Qed.

End LastDayMonths.

(** ** vdup and format_duration *)

Lemma vdup_loop_spec (n copied : nat) (dst_str src : list Ascii.ascii) :
  (copied + n ≤ length src)%nat →
  (copied + n ≤ length dst_str)%nat →
  vdup_loop n copied copied dst_str src
  = take copied dst_str ++ take n (drop copied src)
    ++ drop (copied + n) dst_str.
Proof.
  revert copied dst_str. induction n as [|n IH]; intros copied dst Hs Hd.
  - simpl. rewrite Nat.add_0_r. by rewrite take_drop.
  - cbn [vdup_loop]. rewrite IH by (rewrite ?length_insert; lia).
    destruct (lookup_lt_is_Some_2 src copied ltac:(lia)) as [x Hx].
    rewrite (nth_lookup_Some _ _ _ _ Hx).
    rewrite (take_S_r _ _ x) by (apply list_lookup_insert_eq; lia).
    rewrite take_insert_ge by lia.
    rewrite drop_insert_lt by lia.
    rewrite (drop_S src x copied Hx). simpl.
    rewrite <- app_assoc. simpl.
    by replace (S (copied + n))%nat with (copied + S n)%nat by lia.
Qed.

Lemma vdup_spec (dst : varchar_t) (src : list Ascii.ascii) :
  (length src ≤ length (str dst))%nat →
  str (vdup dst src) = src ++ drop (length src) (str dst)
  ∧ len (vdup dst src) = Z.of_nat (length src)
  ∧ length (str (vdup dst src)) = length (str dst)
  ∧ varchar_text (vdup dst src) = String.string_of_list_ascii src.
Proof.
  intros Hcap. unfold vdup. simpl.
  rewrite vdup_loop_spec by (simpl; lia). simpl.
  rewrite drop_0, firstn_all. split_and!; [done..| |].
  - rewrite length_app, length_drop. lia.
  - unfold varchar_text. simpl. rewrite Nat2Z.id.
    by rewrite take_app_length.
Qed.

(** [vdup] into a buffer that is long enough puts the source at the front
    of the buffer, leaves the rest of the buffer alone and sets the length
    to that of the source. *)
Theorem vdup_copies (dst : varchar_t) (src : list Ascii.ascii) :
  (length src ≤ length (str dst))%nat →
  str (vdup dst src) = src ++ drop (length src) (str dst)
  ∧ len (vdup dst src) = Z.of_nat (length src)
  ∧ length (str (vdup dst src)) = length (str dst)
  ∧ varchar_text (vdup dst src) = String.string_of_list_ascii src.
Proof.
  intros Hcap. unfold vdup. simpl.
  rewrite vdup_loop_spec by (simpl; lia). simpl.
  rewrite drop_0, firstn_all. split_and!; [done..| |].
  - rewrite length_app, length_drop. lia.
  - unfold varchar_text. simpl. rewrite Nat2Z.id.
    by rewrite take_app_length.
Qed.

Lemma string_length_app (s1 s2 : string) :
  String.length (s1 +:+ s2) = (String.length s1 + String.length s2)%nat.
Proof. induction s1 as [|c s1 IH]; simpl; [done|]. by rewrite IH. Qed.

Lemma substring_all (n : nat) (s : string) :
  (String.length s ≤ n)%nat → String.substring 0 n s = s.
Proof.
  revert n. induction s as [|c s IH]; intros n Hn; simpl.
  - by destruct n.
  - destruct n as [|n]; simpl in *; [lia|]. rewrite IH by lia. done.
Qed.

Lemma length_list_ascii_of_string (s : string) :
  length (String.list_ascii_of_string s) = String.length s.
Proof. induction s as [|c s IH]; simpl; [done|]. by rewrite IH. Qed.

Lemma pretty_N_go_length (k : nat) (x : N) (s : string) :
  (x < 10 ^ N.of_nat k)%N →
  (String.length (pretty_N_go x s) ≤ k + String.length s)%nat.
Proof.
  revert x s. induction k as [|k IH]; intros x s Hx.
  - assert (x = 0%N) as -> by (simpl in Hx; lia).
    rewrite pretty_N_go_0. lia.
  - destruct (decide (x = 0%N)) as [->|Hne].
    { rewrite pretty_N_go_0. lia. }
    rewrite pretty_N_go_step by lia.
    etrans; [apply IH|simpl; lia].
    rewrite Nat2N.inj_succ, N.pow_succ_r' in Hx.
    apply N.Div0.div_lt_upper_bound. lia.
Qed.

Lemma pretty_Z_length (k : nat) (x : Z) :
  (1 ≤ k)%nat → - 10 ^ Z.of_nat k < x < 10 ^ Z.of_nat k →
  (String.length (pretty x) ≤ k + (if (x <? 0)%Z then 1 else 0))%nat.
Proof.
  intros Hk Hx.
  assert (∀ p : positive, Z.pos p < 10 ^ Z.of_nat k →
            (String.length (pretty p) ≤ k)%nat) as Hpos.
  { intros p Hp. unfold pretty, pretty_positive, pretty, pretty_N.
    case_decide; [done|].
    pose proof (pretty_N_go_length k (N.pos p) "") as Hlen. simpl in Hlen.
    rewrite Nat.add_0_r in Hlen. apply Hlen.
    apply N2Z.inj_lt. rewrite N2Z.inj_pow, nat_N_Z. simpl. lia. }
  destruct x as [|p|p]; unfold pretty, pretty_Z.
  - simpl. lia.
  - destruct (Z.ltb_spec (Z.pos p) 0); [lia|]. rewrite Nat.add_0_r.
    apply Hpos. lia.
  - destruct (Z.ltb_spec (Z.neg p) 0); [|lia].
    rewrite string_length_app. simpl.
    pose proof (Hpos p ltac:(lia)). lia.
Qed.

Lemma printf_02d_length (k : nat) (x : Z) :
  (2 ≤ k)%nat → - 10 ^ Z.of_nat k < x < 10 ^ Z.of_nat k →
  (String.length (printf_02d x) ≤ k + 1)%nat.
Proof.
  intros Hk Hx. unfold printf_02d.
  destruct (Z.ltb_spec x 0) as [Hneg|Hnn].
  - pose proof (pretty_Z_length k x ltac:(lia) Hx) as Hlen.
    destruct (Z.ltb_spec x 0); lia.
  - destruct (Z.ltb_spec x 10).
    + rewrite string_length_app. simpl.
      pose proof (pretty_Z_length 1 x ltac:(lia) ltac:(simpl; lia)) as Hlen.
      destruct (Z.ltb_spec x 0); lia.
    + pose proof (pretty_Z_length k x ltac:(lia) Hx) as Hlen.
      destruct (Z.ltb_spec x 0); lia.
Qed.

Lemma printf_02d_two_digits (x : Z) :
  0 <= x < 100 → printf_02d x = two_digits x.
Proof.
  intros Hx.
  assert (Forall (λ x, printf_02d x = two_digits x) (seqZ 0 100)) as Hall.
  { refine (bool_decide_unpack _ _). by vm_compute. }
  rewrite Forall_forall in Hall. apply Hall. apply elem_of_seqZ. lia.
Qed.

Lemma duration_fields_spec (nsecs : Z) :
  let '(hours, minutes, seconds) := duration_fields nsecs in
  hours * 3600 + minutes * 60 + seconds = nsecs
  ∧ -60 < minutes < 60
  ∧ -60 < seconds < 60
  ∧ (0 <= nsecs →
     hours = nsecs / 3600 ∧ minutes = nsecs mod 3600 / 60
     ∧ seconds = nsecs mod 60)
  ∧ (nsecs <= 0 → hours <= 0 ∧ minutes <= 0 ∧ seconds <= 0).
Proof.
  unfold duration_fields. destruct (Z.eqb_spec nsecs 0) as [->|Hne]; simpl.
  - by vm_compute.
  - Z.to_euclidean_division_equations. lia.
Qed.

(** The three fields [format_duration] prints add up to the argument again;
    minutes and seconds stay below sixty in magnitude and no field has the
    sign opposite to that of the argument. *)
Theorem duration_fields_recombine (nsecs : Z) :
  let '(hours, minutes, seconds) := duration_fields nsecs in
  hours * 3600 + minutes * 60 + seconds = nsecs
  ∧ -60 < minutes < 60
  ∧ -60 < seconds < 60
  ∧ (0 <= nsecs →
     hours = nsecs / 3600 ∧ minutes = nsecs mod 3600 / 60
     ∧ seconds = nsecs mod 60)
  ∧ (nsecs <= 0 → hours <= 0 ∧ minutes <= 0 ∧ seconds <= 0).
Proof.
  unfold duration_fields. destruct (Z.eqb_spec nsecs 0) as [->|Hne]; simpl.
  - by vm_compute.
  - Z.to_euclidean_division_equations. lia.
Qed.

Lemma format_duration_text (getRetVarCharBuf : Z → varchar_t) (nsecs : Z) :
  (∀ n, (Z.to_nat n ≤ length (str (getRetVarCharBuf n)))%nat) →
  let '(hours, minutes, seconds) := duration_fields nsecs in
  let text := printf_02d hours +:+ ":" +:+ printf_02d minutes +:+ ":"
              +:+ printf_02d seconds in
  (String.length text ≤ 15)%nat →
  ∃ v,
    format_duration getRetVarCharBuf (Some nsecs) = Some v
    ∧ varchar_text v = text
    ∧ len v = Z.of_nat (String.length text).
Proof.
  intros Hcap. unfold format_duration.
  destruct (duration_fields nsecs) as [[hours minutes] seconds].
  set (text := printf_02d hours +:+ ":" +:+ printf_02d minutes +:+ ":"
               +:+ printf_02d seconds).
  intros Hlen. unfold snprintf_duration. fold text.
  rewrite substring_all by done.
  eexists. split; [reflexivity|].
  destruct (vdup_spec (getRetVarCharBuf (Z.of_nat (String.length text)))
              (String.list_ascii_of_string text)) as (_ & Hl & _ & Ht).
  { rewrite length_list_ascii_of_string.
    pose proof (Hcap (Z.of_nat (String.length text))). lia. }
  rewrite Ht, Hl, length_list_ascii_of_string.
  by rewrite String.string_of_list_ascii_of_string.
Qed.

(** For every 32-bit argument the formatted text has at most 15
    characters, so the 16 bytes of [lbuf] never cut it: the result is the
    three fields, each printed with [%02d], separated by colons. *)
Theorem format_duration_not_truncated (getRetVarCharBuf : Z → varchar_t)
    (nsecs : Z) :
  (∀ n, (Z.to_nat n ≤ length (str (getRetVarCharBuf n)))%nat) →
  - 2 ^ 31 <= nsecs < 2 ^ 31 →
  let '(hours, minutes, seconds) := duration_fields nsecs in
  ∃ v,
    format_duration getRetVarCharBuf (Some nsecs) = Some v
    ∧ varchar_text v
      = printf_02d hours +:+ ":" +:+ printf_02d minutes +:+ ":"
        +:+ printf_02d seconds
    ∧ 0 <= len v <= 15.
Proof.
  intros Hcap Hrange.
  pose proof (format_duration_text getRetVarCharBuf nsecs Hcap) as Htext.
  pose proof (duration_fields_spec nsecs) as Hf.
  destruct (duration_fields nsecs) as [[hours minutes] seconds].
  destruct Hf as (Hsum & Hm & Hs & _).
  assert (String.length
            (printf_02d hours +:+ ":" +:+ printf_02d minutes +:+ ":"
             +:+ printf_02d seconds) ≤ 15)%nat as Hlen.
  { rewrite !string_length_app. simpl.
    pose proof (printf_02d_length 6 hours ltac:(lia) ltac:(simpl; lia)).
    pose proof (printf_02d_length 2 minutes ltac:(lia) ltac:(simpl; lia)).
    pose proof (printf_02d_length 2 seconds ltac:(lia) ltac:(simpl; lia)).
    lia. }
  destruct (Htext Hlen) as (v & Hv & Ht & Hl).
  exists v. split; [done|]. split; [done|lia].
Qed.

(** For a duration from zero up to, but not reaching, one hundred hours the
    result is the eight characters HH:MM:SS. *)
Theorem format_duration_hh_mm_ss (getRetVarCharBuf : Z → varchar_t)
    (nsecs : Z) :
  (∀ n, (Z.to_nat n ≤ length (str (getRetVarCharBuf n)))%nat) →
  0 <= nsecs < 360000 →
  ∃ v,
    format_duration getRetVarCharBuf (Some nsecs) = Some v
    ∧ varchar_text v
      = two_digits (nsecs / 3600) +:+ ":"
        +:+ two_digits (nsecs mod 3600 / 60) +:+ ":"
        +:+ two_digits (nsecs mod 60)
    ∧ len v = 8.
Proof.
  intros Hcap Hrange.
  pose proof (format_duration_text getRetVarCharBuf nsecs Hcap) as Htext.
  pose proof (duration_fields_spec nsecs) as Hf.
  destruct (duration_fields nsecs) as [[hours minutes] seconds].
  destruct Hf as (Hsum & Hm & Hs & Hnn & _).
  destruct (Hnn ltac:(lia)) as (-> & -> & ->).
  rewrite !printf_02d_two_digits in Htext
    by (Z.to_euclidean_division_equations; lia).
  destruct (Htext ltac:(simpl; lia)) as (v & Hv & Ht & Hl).
  by exists v.
Qed.

(** ** normalize_time *)

Lemma cast_int_small (v : Z) : - 2 ^ 31 <= v < 2 ^ 31 → cast_int v = v.
Proof.
  intros Hv. unfold cast_int, wrap_signed.
  rewrite Z.mod_small; lia.
Qed.

Section NormalizeTime.
Context `{clock : padb_udf_time}.

Lemma normalize_time_floor (in_ts base_ts interval_spec : Z) :
  microseconds_are_differences →
  0 < interval_spec →
  interval_spec * MICROSECOND < 2 ^ 31 →
  base_ts <= in_ts →
  (in_ts - base_ts) / (interval_spec * MICROSECOND) < 2 ^ 31 →
  normalize_time (Some in_ts) (Some base_ts) (Some interval_spec)
  = RetVal (base_ts
            + (in_ts - base_ts) / (interval_spec * MICROSECOND)
              * (interval_spec * MICROSECOND)).
Proof.
  intros Hdiff Hpos Hstep Hle Hq. unfold normalize_time.
  rewrite Hdiff. unfold MICROSECOND in *.
  set (step := interval_spec * 1000000) in *.
  set (diff := in_ts - base_ts) in *.
  assert (0 <= diff) by (unfold diff; lia).
  assert (0 < step) by (unfold step; lia).
  pose proof (Z.div_mod diff step ltac:(lia)) as Hdm.
  pose proof (Z.mod_pos_bound diff step ltac:(lia)) as Hmod.
  assert (0 <= diff / step) by (apply Z.div_pos; lia).
  destruct (Z.gtb_spec base_ts in_ts); [lia|].
  destruct (Z.eqb_spec diff 0) as [Hz|Hz].
  { rewrite Hz. rewrite Z.div_0_l by lia. f_equal. unfold diff in Hz. lia. }
  destruct (Z.ltb_spec diff step).
  { rewrite Z.div_small by lia. f_equal. lia. }
  rewrite Z.rem_mod_nonneg, Z.quot_div_nonneg by lia.
  rewrite !cast_int_small by lia.
  assert (in_ts = base_ts + diff) as Hin by (unfold diff; lia).
  destruct (Z.eqb_spec (diff mod step) 0) as [Hr|Hr]; f_equal.
  - rewrite Hr in Hdm. rewrite Hin at 1. rewrite Hdm at 1. lia.
  - unfold step. lia.
Qed.

(** With timestamps in microseconds, a positive interval of at most 2147
    seconds and fewer than 2^31 intervals between the two timestamps,
    [normalize_time] returns the last point of the grid that starts at the
    base and steps by the interval which is not after the input: it lies
    between the base and the input, less than one interval before the
    input, at a whole number of intervals from the base. *)
Theorem normalize_time_grid (in_ts base_ts interval_spec : Z) :
  microseconds_are_differences →
  0 < interval_spec →
  interval_spec * MICROSECOND < 2 ^ 31 →
  base_ts <= in_ts →
  (in_ts - base_ts) / (interval_spec * MICROSECOND) < 2 ^ 31 →
  ∃ ret_ts,
    normalize_time (Some in_ts) (Some base_ts) (Some interval_spec)
    = RetVal ret_ts
    ∧ base_ts <= ret_ts <= in_ts
    ∧ in_ts - ret_ts < interval_spec * MICROSECOND
    ∧ (ret_ts - base_ts) mod (interval_spec * MICROSECOND) = 0.
Proof.
  intros Hdiff Hpos Hstep Hle Hq.
  rewrite (normalize_time_floor _ _ _ Hdiff Hpos Hstep Hle Hq).
  eexists. split; [reflexivity|].
  assert (0 < interval_spec * MICROSECOND) by (unfold MICROSECOND; lia).
  set (step := interval_spec * MICROSECOND) in *.
  pose proof (Z.div_mod (in_ts - base_ts) step ltac:(lia)) as Hdm.
  pose proof (Z.mod_pos_bound (in_ts - base_ts) step ltac:(lia)) as Hmod.
  assert (0 <= (in_ts - base_ts) / step) by (apply Z.div_pos; lia).
  split_and!; try nia.
  replace (base_ts + (in_ts - base_ts) / step * step - base_ts)
    with ((in_ts - base_ts) / step * step) by lia.
  apply Z.mod_mul. lia.
Qed.

(** Under the same conditions a timestamp that [normalize_time] returned is
    returned unchanged when it is normalized again. *)
Theorem normalize_time_idempotent (in_ts base_ts interval_spec ret_ts : Z) :
  microseconds_are_differences →
  0 < interval_spec →
  interval_spec * MICROSECOND < 2 ^ 31 →
  base_ts <= in_ts →
  (in_ts - base_ts) / (interval_spec * MICROSECOND) < 2 ^ 31 →
  normalize_time (Some in_ts) (Some base_ts) (Some interval_spec)
  = RetVal ret_ts →
  normalize_time (Some ret_ts) (Some base_ts) (Some interval_spec)
  = RetVal ret_ts.
Proof.
  intros Hdiff Hpos Hstep Hle Hq.
  rewrite (normalize_time_floor _ _ _ Hdiff Hpos Hstep Hle Hq).
  intros [= <-].
  assert (0 < interval_spec * MICROSECOND) by (unfold MICROSECOND; lia).
  set (step := interval_spec * MICROSECOND) in *.
  assert (0 <= (in_ts - base_ts) / step) by (apply Z.div_pos; lia).
  set (q := (in_ts - base_ts) / step) in *.
  assert ((base_ts + q * step - base_ts) / step = q) as Hq'.
  { replace (base_ts + q * step - base_ts) with (q * step) by lia.
    apply Z.div_mul. lia. }
  rewrite normalize_time_floor; try done; fold step.
  - by rewrite Hq'.
  - nia.
  - by rewrite Hq'.
Qed.

(** An argument that is null gives a null result, and a base after the
    input is refused, whatever the interval. *)
Lemma normalize_time_null_or_refused
    (in_ts base_ts interval_spec : option Z) :
  (in_ts = None ∨ base_ts = None ∨ interval_spec = None →
   normalize_time in_ts base_ts interval_spec = RetNull)
  ∧ (∀ i b s, in_ts = Some i → base_ts = Some b → interval_spec = Some s →
       b > i →
       normalize_time in_ts base_ts interval_spec
       = Raise "normalize_timestamp"
           "Base timestamp cannot be greater than input timestamp").
Proof.
  split.
  - intros Hnone.
    destruct in_ts, base_ts, interval_spec; try done.
    by destruct Hnone as [?|[?|?]].
  - intros i b s -> -> -> Hgt. unfold normalize_time.
    destruct (Z.gtb_spec b i); [done|lia].
Qed.

End NormalizeTime.

(** ** The encoder, continued *)

(** For every value whose magnitude is within the signed 64-bit maximum the
    128-bit operator prints the decimal digits, with a minus sign in front
    of a negative value. *)
Theorem ostream_int128_in_long_range (v : Z) :
  - LLONG_MAX <= v <= LLONG_MAX → ostream_int128 v = pretty v.
Proof.
  intros Hv. destruct (Z_lt_dec v 0) as [Hneg|Hnn].
  - simp ostream_int128. destruct (Z_lt_dec v 0) as [?|?]; [|lia]. simpl.
    rewrite ostream_int128_small by lia.
    destruct v as [|p|p]; try lia.
    by replace (Z.neg p * -1) with (Z.pos p) by lia.
  - apply ostream_int128_small. lia.
Qed.

(** Beyond that range the operator is not injective: two different 128-bit
    values print the same text, so two different numeric pivot values can
    share a key. *)
Theorem ostream_int128_not_injective :
  ∃ a b : Z,
    INT128_MIN <= a <= INT128_MAX ∧ INT128_MIN <= b <= INT128_MAX
    ∧ a ≠ b ∧ ostream_int128 a = ostream_int128 b.
Proof.
  exists (2 ^ 63), 922337236854775808. by vm_compute.
Qed.

Section KeyInjective.
Context `{host : vdb_udf}.

Lemma supported_types_distinct :
  NoDup supported_types →
  TypeBigInt ≠ TypeTimeStamp
  ∧ TypeNumeric ≠ TypeTimeStamp ∧ TypeNumeric ≠ TypeBigInt
  ∧ TypeInt ≠ TypeTimeStamp ∧ TypeInt ≠ TypeBigInt ∧ TypeInt ≠ TypeNumeric
  ∧ TypeDate ≠ TypeTimeStamp ∧ TypeDate ≠ TypeBigInt
  ∧ TypeDate ≠ TypeNumeric ∧ TypeDate ≠ TypeInt
  ∧ TypeSmallInt ≠ TypeTimeStamp ∧ TypeSmallInt ≠ TypeBigInt
  ∧ TypeSmallInt ≠ TypeNumeric ∧ TypeSmallInt ≠ TypeInt
  ∧ TypeSmallInt ≠ TypeDate
  ∧ (∀ ty, ty = TypeVarChar ∨ ty = TypeBpChar →
       ty ≠ TypeTimeStamp ∧ ty ≠ TypeBigInt ∧ ty ≠ TypeNumeric
       ∧ ty ≠ TypeInt ∧ ty ≠ TypeDate ∧ ty ≠ TypeSmallInt
       ∧ ty ≠ TypeFloat4 ∧ ty ≠ TypeFloat8).
Proof.
  unfold supported_types. intros Hnd.
  repeat (apply NoDup_cons in Hnd as [? Hnd]).
  repeat match goal with
         | H : _ ∉ _ :: _ |- _ => apply not_elem_of_cons in H as [? ?]
         end.
  split_and!; try (intros Heq; congruence).
  intros ty [->| ->]; split_and!; intros Heq; congruence.
Qed.

(** With the enumerators pairwise different, the keys of the integer and the
    character types tell values apart: two pivot columns of type bigint,
    int, date, smallint, varchar or bpchar that get the same key hold the
    same value. *)
Theorem process_key_injective (ty : int_t) (r1 r2 : RowDesc)
    (i1 i2 : ColumnIndex) (d1 d2 : Datum) :
  NoDup supported_types →
  r1 i1 = Some d1 → r2 i2 = Some d2 →
  (ty = TypeBigInt ∧ (∃ a b, d1 = DBigInt a ∧ d2 = DBigInt b))
  ∨ (ty = TypeInt ∧ (∃ a b, d1 = DInt a ∧ d2 = DInt b))
  ∨ (ty = TypeDate ∧ (∃ a b, d1 = DDate a ∧ d2 = DDate b))
  ∨ (ty = TypeSmallInt ∧ (∃ a b, d1 = DSmallInt a ∧ d2 = DSmallInt b))
  ∨ ((ty = TypeVarChar ∨ ty = TypeBpChar)
     ∧ (∃ a b, d1 = DString a ∧ d2 = DString b)) →
  process_key ty r1 i1 = process_key ty r2 i2 →
  d1 = d2.
Proof.
  intros Hnd H1 H2 Hty.
  destruct (supported_types_distinct Hnd)
    as (?&?&?&?&?&?&?&?&?&?&?&?&?&?&?&Hchar).
  unfold process_key, getBigInt, getInt, getDate, getSmallInt,
    getValueAsString, ostream_int. rewrite H1, H2.
  destruct Hty as [[-> (a & b & -> & ->)]|[[-> (a & b & -> & ->)]
    |[[-> (a & b & -> & ->)]|[[-> (a & b & -> & ->)]
    |[Hc (a & b & -> & ->)]]]]].
  - rewrite (proj2 (Z.eqb_neq TypeBigInt TypeTimeStamp)) by done.
    rewrite Z.eqb_refl. intros Heq. f_equal. by apply (inj pretty).
  - rewrite !(proj2 (Z.eqb_neq TypeInt _)) by done.
    rewrite Z.eqb_refl. intros Heq. f_equal. by apply (inj pretty).
  - rewrite !(proj2 (Z.eqb_neq TypeDate _)) by done.
    rewrite Z.eqb_refl. intros Heq. f_equal. by apply (inj pretty).
  - rewrite !(proj2 (Z.eqb_neq TypeSmallInt _)) by done.
    rewrite Z.eqb_refl. intros Heq. f_equal. by apply (inj pretty).
  - destruct (Hchar ty Hc) as (?&?&?&?&?&?&?&?).
    rewrite !(proj2 (Z.eqb_neq ty _)) by done.
    assert ((ty =? TypeVarChar) || (ty =? TypeBpChar) = true) as ->.
    { destruct Hc as [->| ->]; rewrite Z.eqb_refl; [done|].
      by rewrite orb_true_r. }
    intros Heq. by f_equal.
Qed.

End KeyInjective.

(** * The worked example, continued *)

Example DescribeCmd_example :
  ∃ d',
    @DescribeCmd example_host (example_arg example_catalog) Declarations_new
    = Ok d'
    ∧ outputColumns d'
      = [CopiedColumn 0;
         AddedColumn {| col_type := 4; col_length := 4 |} "open_amt";
         AddedColumn {| col_type := 4; col_length := 4 |} "closed_amt"].
Proof. eexists. split; reflexivity. Qed.

Lemma StartCmd_keys_witness :
  ∃ tblMap,
    @StartCmd example_host (example_arg example_catalog) = Ok tblMap
    ∧ (getMapSize tblMap ≤ 2)%nat.
Proof.
  destruct (@StartCmd_keys example_host (example_arg example_catalog)
              _ _ eq_refl eq_refl) as (tblMap & Hs & _ & _ & Hle & _).
  exists tblMap. split; [exact Hs | exact Hle].
Defined.

Lemma StartCmd_offsets_distinct_witness :
  m_map_values example_map !! "OPEN" = Some 0 ∧ "OPEN" = "OPEN".
Proof.
  split; [reflexivity|].
  apply (@StartCmd_offsets_distinct example_host
           (example_arg example_catalog) example_map "OPEN" "OPEN" 0);
    reflexivity.
Defined.

Lemma StartCmd_findcolumnoffset_witness :
  findcolumnoffset example_map "PENDING" = -1
  ↔ "PENDING" ∉ map (@add_key example_host 9) (qr_rows example_catalog).
Proof.
  exact (proj1 (@StartCmd_findcolumnoffset example_host
                  (example_arg example_catalog) _ example_map "PENDING"
                  eq_refl eq_refl)).
Defined.

Lemma deserialize_merges_witness :
  ∃ restored,
    deserialize example_map (serialize example_map []) = Some (restored, [])
    ∧ m_map_values restored
      = m_map_values example_map ∪ m_map_values example_map.
Proof.
  destruct (deserialize_merges example_map example_map
              (map_to_list (m_map_values example_map)) [])
    as (restored & Hd & Hmap & _); [reflexivity|].
  exists restored. split; [|exact Hmap].
  unfold serialize. rewrite <- Hd. by rewrite app_nil_r.
Defined.

Lemma process_negative_offset_witness :
  @process example_host example_negative_processor
    (example_row "east" "OPEN" 10)
  = Err (PivotKeyNotFound "OPEN").
Proof.
  apply (@process_negative_offset example_host example_negative_processor
           (example_row "east" "OPEN" 10) (-3)); [reflexivity..|lia].
Defined.

Lemma process_rows_keeps_map_witness :
  ∃ self',
    @process_rows example_host example_processor
      [example_row "east" "OPEN" 10; example_row "east" "CLOSED" 5]
    = Ok self'
    ∧ m_map self' = example_map.
Proof.
  eexists. split; [reflexivity|].
  exact (proj1 (@process_rows_keeps_map example_host
                  [example_row "east" "OPEN" 10; example_row "east" "CLOSED" 5]
                  example_processor _ eq_refl)).
Defined.

Lemma process_rows_pivot_witness :
  ∃ self',
    @process_rows example_host example_processor
      [example_row "east" "OPEN" 10; example_row "east" "OPEN" 12]
    = Ok self'
    ∧ m_out_rd self' 0 = Some (DString "east")
    ∧ m_out_rd self' 1 = Some (DInt 12)
    ∧ m_out_rd self' 2 = None.
Proof.
  eexists. split; [reflexivity|].
  destruct (@process_rows_pivot example_host example_processor _
              (example_row "east" "OPEN" 10) [example_row "east" "OPEN" 12]
              eq_refl eq_refl) as (Hgrp & Hlast & Hnone).
  split_and!.
  - exact (Hgrp 0 ltac:(simpl; lia)).
  - refine (Hlast 1%nat (example_row "east" "OPEN" 12) 0 eq_refl _
              ltac:(simpl; lia)).
    intros [|[|[|i']]] r' Hlt Hr'; simpl in *; try lia; discriminate.
  - refine (Hnone 1 0 ltac:(vm_compute; split; congruence)
              ltac:(simpl; lia) _).
    intros r Hr.
    apply elem_of_cons in Hr as [->|Hr];
      [|apply list_elem_of_singleton in Hr as ->]; by vm_compute.
Defined.

Lemma process_commutes_witness :
  ∃ b ba ab,
    @process example_host example_processor (example_row "east" "CLOSED" 5)
    = Ok b
    ∧ @process example_host b (example_row "east" "OPEN" 10) = Ok ba
    ∧ m_out_rd ba 1 = m_out_rd ab 1.
Proof.
  destruct (@process_commutes example_host example_processor _ _
              (example_row "east" "OPEN" 10) (example_row "east" "CLOSED" 5)
              eq_refl eq_refl) as (b & ba & Hb & Hba & Hout).
  - by vm_compute.
  - intros _ g Hg. apply list_elem_of_singleton in Hg as ->. reflexivity.
  - exists b, ba. eexists. split_and!; [exact Hb | exact Hba | exact (Hout 1)].
Defined.

Lemma DescribeCmd_Ok_iff_witness :
  ∃ d',
    @DescribeCmd example_host (example_arg example_catalog) Declarations_new
    = Ok d'.
Proof.
  apply (proj1 (@DescribeCmd_Ok_iff example_host
                  (example_arg example_catalog) _ Declarations_new eq_refl)).
  split; [simpl; lia|].
  intros i Hi. assert (i = 1%nat) as -> by (simpl in Hi; lia).
  eexists. split; [reflexivity|]. by left.
Defined.

Lemma DescribeCmd_layout_witness :
  ∃ d',
    @DescribeCmd example_host (example_arg example_catalog) Declarations_new
    = Ok d'
    ∧ length (outputColumns d') = 3%nat.
Proof.
  eexists. split; [reflexivity|].
  destruct (@DescribeCmd_layout example_host (example_arg example_catalog)
              _ _ eq_refl eq_refl) as (_ & _ & _ & _ & Hlen & _).
  exact Hlen.
Defined.

Lemma pivot_position_is_labelled_witness :
  ∃ d' rowp,
    @DescribeCmd example_host (example_arg example_catalog) Declarations_new
    = Ok d'
    ∧ qr_rows example_catalog !! 1%nat = Some rowp
    ∧ outputColumns d' !! 2%nat
      = Some (AddedColumn {| col_type := 4; col_length := 4 |}
                (getValueAsString rowp 1)).
Proof.
  eexists.
  destruct (@pivot_position_is_labelled example_host
              (example_arg example_catalog) _ _ example_map "CLOSED" 1 0
              eq_refl eq_refl eq_refl eq_refl ltac:(simpl; lia))
    as (rowp & Hrow & _ & _ & Hcol).
  exists rowp. split; [reflexivity|]. split; [exact Hrow | exact Hcol].
Defined.

Lemma last_day_is_month_end_witness :
  ∃ retdate,
    @last_day civil_calendar (Some example_date) = Some retdate
    ∧ c_day retdate = 29.
Proof.
  destruct (@last_day_is_month_end civil_calendar example_date
              civil_plus_days_within_month ltac:(simpl; lia))
    as (retdate & Hl & _ & _ & Hd & _).
  exists retdate. split; [exact Hl | exact Hd].
Defined.

Lemma last_day_idempotent_witness :
  ∃ r1 r2,
    @last_day civil_calendar (Some example_date) = Some r1
    ∧ @last_day civil_calendar (Some r1) = Some r2
    ∧ c_day r2 = c_day r1.
Proof.
  destruct (@last_day_idempotent civil_calendar example_date
              civil_plus_days_within_month ltac:(simpl; lia))
    as (r1 & r2 & H1 & H2 & _ & _ & Hd).
  exists r1, r2. split_and!; [exact H1 | exact H2 | exact Hd].
Defined.

Lemma vdup_copies_witness :
  varchar_text (vdup (example_buffer 4) (String.list_ascii_of_string "ab"))
  = "ab".
Proof.
  exact (proj2 (proj2 (proj2
           (vdup_copies (example_buffer 4) (String.list_ascii_of_string "ab")
              ltac:(simpl; lia))))).
Defined.

Lemma example_buffer_capacity (n : Z) :
  (Z.to_nat n ≤ length (str (example_buffer n)))%nat.
Proof. simpl. by rewrite length_replicate. Qed.

Lemma duration_fields_recombine_witness :
  duration_fields 3725 = (1, 2, 5) ∧ 1 * 3600 + 2 * 60 + 5 = 3725.
Proof.
  split; [reflexivity|].
  exact (proj1 (duration_fields_recombine 3725)).
Defined.

Lemma format_duration_not_truncated_witness :
  ∃ v,
    format_duration example_buffer (Some (-2147483648)) = Some v
    ∧ varchar_text v = "-596523:-14:-8".
Proof.
  destruct (format_duration_not_truncated example_buffer (-2147483648)
              example_buffer_capacity ltac:(lia)) as (v & Hv & Ht & _).
  exists v. split; [exact Hv | exact Ht].
Defined.

Lemma format_duration_hh_mm_ss_witness :
  ∃ v,
    format_duration example_buffer (Some 3725) = Some v
    ∧ varchar_text v = "01:02:05".
Proof.
  destruct (format_duration_hh_mm_ss example_buffer 3725
              example_buffer_capacity ltac:(lia)) as (v & Hv & Ht & _).
  exists v. split; [exact Hv | exact Ht].
Defined.

Lemma microsecond_clock_differences :
  @microseconds_are_differences microsecond_clock.
Proof. intros a b. reflexivity. Qed.

Lemma normalize_time_grid_witness :
  ∃ ret_ts,
    @normalize_time microsecond_clock (Some 25000000) (Some 0) (Some 10)
    = RetVal ret_ts
    ∧ 0 <= ret_ts <= 25000000.
Proof.
  destruct (@normalize_time_grid microsecond_clock 25000000 0 10
              microsecond_clock_differences ltac:(lia) ltac:(by vm_compute)
              ltac:(lia) ltac:(by vm_compute))
    as (ret_ts & Hn & Hb & _).
  exists ret_ts. split; [exact Hn | exact Hb].
Defined.

Lemma normalize_time_idempotent_witness :
  @normalize_time microsecond_clock (Some 20000000) (Some 0) (Some 10)
  = RetVal 20000000.
Proof.
  apply (@normalize_time_idempotent microsecond_clock 25000000 0 10 20000000
           microsecond_clock_differences); try lia; by vm_compute.
Defined.

Lemma ostream_int128_in_long_range_witness :
  ostream_int128 (-42) = "-42".
Proof. exact (ostream_int128_in_long_range (-42) ltac:(by vm_compute)). Defined.

Lemma example_host_types_distinct : NoDup (@supported_types example_host).
Proof.
  refine (bool_decide_unpack _ _). by vm_compute.
Qed.

Lemma process_key_injective_witness :
  DString "OPEN" = DString "OPEN".
Proof.
  apply (@process_key_injective example_host 9
           (example_row "east" "OPEN" 10) (example_row "west" "OPEN" 7)
           1 1 (DString "OPEN") (DString "OPEN")
           example_host_types_distinct eq_refl eq_refl).
  - do 4 right. split; [by left|]. by exists "OPEN", "OPEN".
  - reflexivity.
Defined.
